(** * citest: path predicates and the value observation verifier

    A shallow embedding of [citest.json_contract.value_observation_verifier]
    together with the part of [citest.json_predicate] it relies on, and the
    properties stated about them. *)

From Stdlib Require Import String Ascii List Bool Arith Lia ZArith.
From Stdlib Require Import Decimal DecimalString DecimalNat Permutation.
Import ListNotations.
Open Scope string_scope.

(** ** JSON-like values *)

(** The objects of an observation: Python [None], booleans, integers,
    strings, lists and dicts.  A dict is kept as an association list in
    insertion order. *)
#[warnings="-register-all"] Inductive value : Type :=
| VNone
| VBool (b : bool)
| VNum (n : Z)
| VStr (s : string)
| VList (items : list value)
| VDict (entries : list (string * value)).

(** Induction that also gives the hypothesis on the items of a list and on
    the entries of a dict. *)
Definition value_nested_ind (Q : value -> Prop)
    (HNone : Q VNone)
    (HBool : forall b, Q (VBool b))
    (HNum : forall n, Q (VNum n))
    (HStr : forall s, Q (VStr s))
    (HList : forall items, Forall Q items -> Q (VList items))
    (HDict : forall entries, Forall (fun e => Q (snd e)) entries ->
                             Q (VDict entries)) : forall v, Q v :=
  fix go (v : value) : Q v :=
    match v with
    | VNone => HNone
    | VBool b => HBool b
    | VNum n => HNum n
    | VStr s => HStr s
    | VList items =>
        HList items
          ((fix all (l : list value) : Forall Q l :=
              match l with
              | [] => Forall_nil Q
              | x :: xs => Forall_cons x (go x) (all xs)
              end) items)
    | VDict entries =>
        HDict entries
          ((fix all (l : list (string * value))
              : Forall (fun e => Q (snd e)) l :=
              match l with
              | [] => Forall_nil _
              | e :: es => Forall_cons e (go (snd e)) (all es)
              end) entries)
    end.

Definition value_eq_dec : forall a b : value, {a = b} + {a <> b}.
Proof.
  fix self 1.
  decide equality.
  - apply Bool.bool_dec.
  - apply Z.eq_dec.
  - apply string_dec.
  - apply list_eq_dec. exact self.
  - apply list_eq_dec. decide equality. apply string_dec.
Defined.

(** Structural equality of values, by which the set of validated objects
    tells its members apart.  It is finer than Python's [==] (see [py_eq]
    below): it keeps [True] and [1] apart, and two dicts with the same
    entries inserted in a different order. *)
Definition value_eqb (a b : value) : bool :=
  if value_eq_dec a b then true else false.

Definition is_list (v : value) : bool :=
  match v with VList _ => true | _ => false end.

(** Python's [key in d] / [d[key]] on a dict. *)
Fixpoint dict_get (k : string) (entries : list (string * value))
  : option value :=
  match entries with
  | [] => None
  | (k', v) :: rest => if String.eqb k k' then Some v else dict_get k rest
  end.

(** Python's [==] on values: [True] and [False] compare as [1] and [0],
    lists compare element by element, dicts compare as mappings, whatever
    the order of their entries. *)
Fixpoint py_eq (a b : value) {struct a} : bool :=
  match a, b with
  | VNone, VNone => true
  | VBool x, VBool y => Bool.eqb x y
  | VBool x, VNum n => Z.eqb (if x then 1 else 0) n
  | VNum n, VBool y => Z.eqb n (if y then 1 else 0)
  | VNum m, VNum n => Z.eqb m n
  | VStr s, VStr t => String.eqb s t
  | VList xs, VList ys =>
      (fix all2 (l r : list value) {struct l} : bool :=
         match l, r with
         | [], [] => true
         | x :: l', y :: r' => py_eq x y && all2 l' r'
         | _, _ => false
         end) xs ys
  | VDict es, VDict fs =>
      Nat.eqb (length es) (length fs)
      && (fix each (l : list (string * value)) {struct l} : bool :=
            match l with
            | [] => true
            | (k, v) :: l' =>
                match dict_get k fs with
                | Some w => py_eq v w
                | None => false
                end && each l'
            end) es
  | _, _ => false
  end.

(** ** Predicates on values *)

(** The [ValuePredicate] capability: anything that can be applied to a value
    and whose result is truthy or falsy. *)
Class ValuePredicate (P : Type) := pred_call : P -> value -> bool.

(** ** Path syntax *)

Definition PATH_SEP : ascii := "/"%char.

(** Modelled from the spec: [DONT_ENUMERATE_TERMINAL] is imported by name in
    path_predicate_test.py and its definition is not part of the sources.
    It is the reserved marker that may end a path; the character used to
    represent it here is the colon. *)
Definition DONT_ENUMERATE_TERMINAL : ascii := ":"%char.

Definition sep_string : string := String PATH_SEP "".
Definition marker_string : string := String DONT_ENUMERATE_TERMINAL "".

Inductive step : Type :=
| Key (k : string)
| Index (i : nat).

Definition digit_of (c : ascii) : option nat :=
  let n := nat_of_ascii c in
  if ((48 <=? n) && (n <=? 57))%nat then Some (n - 48) else None.

Inductive lex_state : Type :=
| Outside
| Inside (acc : option nat).

(** Reads a segment made only of bracketed indices, ["[1][0][2]"]. *)
Fixpoint parse_indices (st : lex_state) (s : string) : option (list nat) :=
  match s, st with
  | EmptyString, Outside => Some []
  | EmptyString, Inside _ => None
  | String c rest, Outside =>
      if Ascii.eqb c "["%char then parse_indices (Inside None) rest else None
  | String c rest, Inside acc =>
      match digit_of c with
      | Some d =>
          let n := match acc with Some a => 10 * a + d | None => d end in
          parse_indices (Inside (Some n)) rest
      | None =>
          if Ascii.eqb c "]"%char then
            match acc with
            | Some n => option_map (cons n) (parse_indices Outside rest)
            | None => None
            end
          else None
      end
  end.

Definition steps_of_segment (seg : string) : list step :=
  match parse_indices Outside seg with
  | Some (i :: more) => map Index (i :: more)
  | _ => [Key seg]
  end.

Fixpoint split_on (sep : ascii) (s : string) : list string :=
  match s with
  | EmptyString => [EmptyString]
  | String c rest =>
      if Ascii.eqb c sep then EmptyString :: split_on sep rest
      else match split_on sep rest with
           | h :: t => String c h :: t
           | [] => [String c EmptyString]
           end
  end.

Definition nonempty (s : string) : bool :=
  match s with EmptyString => false | _ => true end.

(** Removes a trailing marker; the boolean is [enumerate_terminals]. *)
Fixpoint strip_marker (s : string) : string * bool :=
  match s with
  | EmptyString => (EmptyString, true)
  | String c EmptyString =>
      if Ascii.eqb c DONT_ENUMERATE_TERMINAL then (EmptyString, false)
      else (s, true)
  | String c rest =>
      let (r, e) := strip_marker rest in (String c r, e)
  end.

Definition steps_of_path (s : string) : list step :=
  flat_map steps_of_segment (filter nonempty (split_on PATH_SEP s)).

Definition parse_path (s : string) : list step * bool :=
  let (body, enumerate) := strip_marker s in (steps_of_path body, enumerate).

(** ** Emitted path strings *)

Definition decimal (n : nat) : string := NilEmpty.string_of_uint (Nat.to_uint n).

Definition index_suffix (i : nat) : string := "[" ++ decimal i ++ "]".

Definition join_key (p k : string) : string :=
  match p with
  | EmptyString => k
  | _ => p ++ sep_string ++ k
  end.

(** ** Results of a path predicate *)

Record PathValue : Type := mkPathValue { pv_path : string; pv_value : value }.

Record PathValueResult (P : Type) : Type := mkPathValueResult {
  pvr_pred : option P;
  pvr_source : value;
  pvr_target_path : string;
  pvr_path_value : PathValue;
  pvr_valid : bool }.
Arguments mkPathValueResult {P}.
Arguments pvr_pred {P}.
Arguments pvr_source {P}.
Arguments pvr_target_path {P}.
Arguments pvr_path_value {P}.
Arguments pvr_valid {P}.

(** What [add_result_candidate] receives next to a path value: the result of
    the filter on it, or the error of a traversal that stopped. *)
Inductive CandidateResult (P : Type) : Type :=
| ValueResult (r : PathValueResult P)
| MissingPathError (source : value) (missing_key : string)
                   (path_value : PathValue).
Arguments ValueResult {P}.
Arguments MissingPathError {P}.

Definition candidate_valid {P} (r : CandidateResult P) : bool :=
  match r with
  | ValueResult r => pvr_valid r
  | MissingPathError _ _ _ => false
  end.

Record PathPredicate (P : Type) : Type := mkPathPredicate {
  path : string;
  pred : option P }.
Arguments mkPathPredicate {P}.
Arguments path {P}.
Arguments pred {P}.

Record PathPredicateResult (P : Type) : Type := mkPathPredicateResult {
  valid : bool;
  ppr_source : value;
  ppr_pred : PathPredicate P;
  path_values : list PathValue;
  path_failures : list (CandidateResult P) }.
Arguments mkPathPredicateResult {P}.
Arguments valid {P}.
Arguments ppr_source {P}.
Arguments ppr_pred {P}.
Arguments path_values {P}.
Arguments path_failures {P}.

(** The builder the tests drive directly: a candidate whose result is valid
    adds its path value to [path_values], any other candidate adds its result
    to [path_failures] (path_predicate_test.py,
    [test_collect_from_dict_identity] and [test_collect_filter_good]). *)
Record PathPredicateResultBuilder (P : Type) : Type := mkPPRBuilder {
  bld_source : value;
  bld_pred : PathPredicate P;
  bld_values : list PathValue;
  bld_failures : list (CandidateResult P) }.
Arguments mkPPRBuilder {P}.
Arguments bld_source {P}.
Arguments bld_pred {P}.
Arguments bld_values {P}.
Arguments bld_failures {P}.

Definition new_result_builder {P} (source : value) (pp : PathPredicate P)
  : PathPredicateResultBuilder P :=
  mkPPRBuilder source pp [] [].

Definition add_result_candidate {P} (b : PathPredicateResultBuilder P)
    (pv : PathValue) (final_result : CandidateResult P)
  : PathPredicateResultBuilder P :=
  if candidate_valid final_result
  then mkPPRBuilder (bld_source b) (bld_pred b)
                    (bld_values b ++ [pv])%list (bld_failures b)
  else mkPPRBuilder (bld_source b) (bld_pred b)
                    (bld_values b) (bld_failures b ++ [final_result])%list.

Definition build_result {P} (b : PathPredicateResultBuilder P) (ok : bool)
  : PathPredicateResult P :=
  mkPathPredicateResult ok (bld_source b) (bld_pred b)
                        (bld_values b) (bld_failures b).

(** ** Traversal *)

(** An entry of the frontier once a step has been applied: the value reached,
    or the place where the step could not be taken. *)
Inductive outcome : Type :=
| Reached (pv : PathValue)
| Stopped (source : value) (missing_key : string) (at_value : PathValue).

(** The elements of a list with their index-suffixed paths, counting from
    [i]. *)
Fixpoint indexed_from (p : string) (i : nat) (items : list value)
  : list PathValue :=
  match items with
  | [] => []
  | x :: rest =>
      mkPathValue (p ++ index_suffix i) x :: indexed_from p (S i) rest
  end.

(** Applies [f] to every element of a list, each at its index-suffixed path,
    and concatenates what it gives, in list order. *)
Definition distribute (f : string -> value -> list outcome) (p : string)
  : nat -> list value -> list outcome :=
  fix over (i : nat) (l : list value) {struct l} : list outcome :=
    match l with
    | [] => []
    | x :: more => List.app (f (p ++ index_suffix i) x) (over (S i) more)
    end.

Definition is_nil {A} (l : list A) : bool :=
  match l with [] => true | _ => false end.

(** Modelled from the spec: [PathPredicate.__call__] and its helpers are not
    part of the sources (only path_predicate_test.py is); this is step 2 of
    the traversal algorithm of section 4.1.  A key step distributes over a
    list in list order and is applied again to each element, unless it is the
    final step of a path carrying the no-enumerate marker; an index step needs
    a list with the index in range; a key step needs a dict holding the key;
    every other case stops the branch with a MissingPathError anchored at the
    entry the step was applied to. *)
Fixpoint traverse (enumerate : bool) (steps : list step)
  : string -> value -> list outcome :=
  match steps with
  | [] => fun p v => [Reached (mkPathValue p v)]
  | Index i :: rest =>
      fun p v =>
        match v with
        | VList items =>
            match nth_error items i with
            | Some x => traverse enumerate rest (p ++ index_suffix i) x
            | None => [Stopped v (index_suffix i) (mkPathValue p v)]
            end
        | _ => [Stopped v (index_suffix i) (mkPathValue p v)]
        end
  | Key k :: rest =>
      let distributes := negb (is_nil rest && negb enumerate) in
      fix at_value (p : string) (v : value) {struct v} : list outcome :=
        match v with
        | VList items =>
            if distributes then distribute at_value p 0 items
            else [Stopped v k (mkPathValue p v)]
        | VDict entries =>
            match dict_get k entries with
            | Some x => traverse enumerate rest (join_key p k) x
            | None => [Stopped v k (mkPathValue p v)]
            end
        | _ => [Stopped v k (mkPathValue p v)]
        end
  end.

(** Modelled from the spec: step 3 of section 4.1.  A surviving entry whose
    value is a list is expanded one level unless the marker was present. *)
Definition terminal (enumerate : bool) (o : outcome) : list outcome :=
  match o with
  | Reached (mkPathValue p (VList items)) =>
      if enumerate then map Reached (indexed_from p 0 items) else [o]
  | _ => [o]
  end.

Definition collect_values (enumerate : bool) (steps : list step)
    (source : value) : list outcome :=
  flat_map (terminal enumerate) (traverse enumerate steps "" source).

Section Call.
Context {P : Type} `{ValuePredicate P}.

Definition filter_valid (pp : PathPredicate P) (v : value) : bool :=
  match pred pp with
  | Some f => pred_call f v
  | None => true
  end.

(** Modelled from the spec: step 4 of section 4.1, with the builder of the
    tests.  Every candidate is handed to [add_result_candidate] with the
    result of the filter on it; the records have the fields the tests
    construct (source is the root, target_path the path of the
    predicate). *)
Definition offer (pp : PathPredicate P) (source : value)
    (b : PathPredicateResultBuilder P) (o : outcome)
  : PathPredicateResultBuilder P :=
  match o with
  | Reached pv =>
      add_result_candidate b pv
        (ValueResult (mkPathValueResult (pred pp) source (path pp) pv
                        (filter_valid pp (pv_value pv))))
  | Stopped s k pv => add_result_candidate b pv (MissingPathError s k pv)
  end.

(** Modelled from the spec: [PathPredicate.__call__], section 4.1.  A
    [None] root gives an empty result (step 5); the result is valid iff it
    holds at least one path value. *)
Definition call (pp : PathPredicate P) (source : value)
  : PathPredicateResult P :=
  match source with
  | VNone => build_result (new_result_builder source pp) false
  | _ =>
      let (steps, enumerate) := parse_path (path pp) in
      let b := fold_left (offer pp source)
                         (collect_values enumerate steps source)
                         (new_result_builder source pp) in
      build_result b (negb (is_nil (bld_values b)))
  end.
End Call.

(** ** The object a path value lies in *)

(** The text before the first closing bracket, and what follows it. *)
Fixpoint until_bracket (s : string) : option (string * string) :=
  match s with
  | EmptyString => None
  | String c rest =>
      if Ascii.eqb c "]"%char then Some (EmptyString, rest)
      else match until_bracket rest with
           | Some (before, after) => Some (String c before, after)
           | None => None
           end
  end.

(** The index a path starts with, if it starts with a bracketed index:
    [3] for ["[3]/a"]. *)
Definition leading_index (p : string) : option nat :=
  match p with
  | String c rest =>
      if Ascii.eqb c "["%char then
        match until_bracket rest with
        | Some (String d digits, _) =>
            option_map Nat.of_uint
                       (NilEmpty.uint_of_string (String d digits))
        | _ => None
        end
      else None
  | EmptyString => None
  end.

(** The element of the source list a path value was resolved in: the one its
    path starts at.  A path value that does not start in an element of a
    list lies in none. *)
Definition object_of (source : value) (pv : PathValue) : list value :=
  match source, leading_index (pv_path pv) with
  | VList items, Some i =>
      match nth_error items i with
      | Some o => [o]
      | None => []
      end
  | _, _ => []
  end.

(** The observed objects the path values of a result lie in. *)
Definition validated_objects_of {P} (r : PathPredicateResult P)
  : list value :=
  flat_map (object_of (ppr_source r)) (path_values r).

(** ** The value observation verifier *)

Definition error : Type := string.

Record Observation : Type := mkObservation {
  objects : list value;
  errors : list error }.

Definition dquote : string := String (ascii_of_nat 34) EmptyString.

Section Verifier.
Context {P : Type} `{ValuePredicate P}.

(** A constraint is a [ValuePredicate].  [Produces f] stands for one that
    is a [ProducesPathPredicateResult] (a path predicate, a cardinality
    predicate): it is called on the object list itself.  [Plain p] is any
    other predicate. *)
Inductive Constraint : Type :=
| Produces (apply : value -> PathPredicateResult P)
| Plain (p : P).

Inductive ResultEntry : Type :=
| ConstraintResult (r : PathPredicateResult P)
| ObservationFailedError (errs : list error).

Record ObservationVerifyResult : Type := mkObservationVerifyResult {
  ovr_valid : bool;
  ovr_observation : Observation;
  good_results : list ResultEntry;
  bad_results : list ResultEntry;
  failed_constraints : list Constraint;
  comment : string }.

Record ObservationVerifyResultBuilder : Type := mkOVRBuilder {
  ob_observation : Observation;
  ob_failed_constraints : list Constraint;
  ob_good_results : list ResultEntry;
  ob_bad_results : list ResultEntry;
  validated_object_set : list value }.

Definition new_verify_builder (observation : Observation)
  : ObservationVerifyResultBuilder :=
  mkOVRBuilder observation [] [] [] [].

(** Adding to a set of distinct objects. *)
Definition set_add (s : list value) (x : value) : list value :=
  if existsb (value_eqb x) s then s else (s ++ [x])%list.

(** Modelled from the spec: [ObservationVerifyResultBuilder] is defined in
    observation_verifier.py, which is not part of the sources.
    [add_failed_constraint] appends to [failed_constraints] (section 4.4,
    step 3). *)
Definition add_failed_constraint (b : ObservationVerifyResultBuilder)
    (c : Constraint) : ObservationVerifyResultBuilder :=
  mkOVRBuilder (ob_observation b) (ob_failed_constraints b ++ [c])%list
               (ob_good_results b) (ob_bad_results b)
               (validated_object_set b).

(** Modelled from the spec: [add_path_predicate_result] of the same absent
    builder.  The result is recorded, with the good results when it is
    truthy and with the bad ones otherwise, and the observed objects in which
    the path values of a successful result lie join [validated_object_set],
    the set of distinct objects matched by a successful constraint result
    (section 3, section 4.4 step 4, and scenario 5 of section 8, which
    counts objects of the observation and not the values resolved in
    them). *)
Definition add_path_predicate_result (b : ObservationVerifyResultBuilder)
    (r : PathPredicateResult P) : ObservationVerifyResultBuilder :=
  if valid r
  then mkOVRBuilder (ob_observation b) (ob_failed_constraints b)
                    (ob_good_results b ++ [ConstraintResult r])%list
                    (ob_bad_results b)
                    (fold_left set_add (validated_objects_of r)
                               (validated_object_set b))
  else mkOVRBuilder (ob_observation b) (ob_failed_constraints b)
                    (ob_good_results b)
                    (ob_bad_results b ++ [ConstraintResult r])%list
                    (validated_object_set b).

(** Modelled from the spec: [build(valid)] of the same absent builder.  It
    is given the validity and nothing else (value_observation_verifier.py
    line 221, value_observation_verifier_test.py line 90), so the comment of
    the result is the default one, the empty string. *)
Definition build_verify_result (b : ObservationVerifyResultBuilder)
    (ok : bool) : ObservationVerifyResult :=
  mkObservationVerifyResult ok (ob_observation b) (ob_good_results b)
                            (ob_bad_results b) (ob_failed_constraints b)
                            EmptyString.

(** The verifier, as its constructor stores it.  The [dnf_verifiers] of the
    base class are not consulted by [__call__] and are left out. *)
Record ValueObservationVerifier : Type := mkVerifier {
  title : string;
  constraints : list Constraint;
  strict : bool }.

(** What a run does besides returning: the messages it logs and the
    constraints it calls, in order. *)
Inductive Event : Type :=
| DebugObservationErrors (errs : list error)
| DebugVerifyingNone
| DebugVerifying (c : Constraint)
| Evaluated (c : Constraint) (object_list : list value)
| DebugFailed
| InfoComment (text : string).

Definition evaluations (log : list Event)
  : list (Constraint * list value) :=
  flat_map (fun e => match e with
                     | Evaluated c l => [(c, l)]
                     | _ => []
                     end) log.

Definition info_comments (log : list Event) : list string :=
  flat_map (fun e => match e with
                     | InfoComment t => [t]
                     | _ => []
                     end) log.

(** Lines 199-203: a constraint that produces path predicate results is
    called on the object list, any other is wrapped in an empty-path
    [PathPredicate] first. *)
Definition eval_constraint (c : Constraint) (object_list : list value)
  : PathPredicateResult P :=
  match c with
  | Produces apply => apply (VList object_list)
  | Plain p => call (mkPathPredicate "" (Some p)) (VList object_list)
  end.

Record LoopState : Type := mkLoopState {
  ls_valid : bool;
  final_builder : ObservationVerifyResultBuilder;
  ls_log : list Event }.

(** The body of the loop, lines 195-209. *)
Definition check_constraint (object_list : list value) (st : LoopState)
    (c : Constraint) : LoopState :=
  let log := (ls_log st ++ [DebugVerifying c; Evaluated c object_list])%list in
  let constraint_result := eval_constraint c object_list in
  if valid constraint_result
  then mkLoopState (ls_valid st)
         (add_path_predicate_result (final_builder st) constraint_result)
         log
  else mkLoopState false
         (add_path_predicate_result
            (add_failed_constraint (final_builder st) c) constraint_result)
         (log ++ [DebugFailed])%list.

Definition check_constraints (cs : list Constraint)
    (object_list : list value) (st : LoopState) : LoopState :=
  fold_left (check_constraint object_list) cs st.

Definition strict_comment (t : string) (len_validated len_objects : nat)
  : string :=
  "Strict verifier " ++ dquote ++ t ++ dquote ++ " confirmed "
    ++ decimal len_validated ++ " of " ++ decimal len_objects
    ++ " objects.".

(** Lines 177-187. *)
Definition object_list_of (observation : Observation) : list value :=
  if is_nil (objects observation) then [VNone] else objects observation.

(** Lines 211-219; the comment is logged. *)
Definition strict_check (v : ValueObservationVerifier)
    (object_list : list value) (st : LoopState) : bool * list Event :=
  if ls_valid st && strict v then
    let len_validated := length (validated_object_set (final_builder st)) in
    let len_objects := length object_list in
    if Nat.eqb len_validated len_objects then (true, ls_log st)
    else (false,
          (ls_log st ++
             [InfoComment
                (strict_comment (title v) len_validated len_objects)])%list)
  else (ls_valid st, ls_log st).

(** [ValueObservationVerifier.__call__], with the log of the run. *)
Definition verify (v : ValueObservationVerifier) (observation : Observation)
  : ObservationVerifyResult * list Event :=
  if negb (is_nil (errors observation)) then
    (mkObservationVerifyResult false observation []
       [ObservationFailedError (errors observation)] []
       "Observation Failed.",
     [DebugObservationErrors (errors observation)])
  else
    let object_list := object_list_of observation in
    let log0 := if is_nil (objects observation)
                then [DebugVerifyingNone] else [] in
    let st := check_constraints (constraints v) object_list
                (mkLoopState true (new_verify_builder observation) log0) in
    let (ok, log) := strict_check v object_list st in
    (build_verify_result (final_builder st) ok, log).
End Verifier.

(** ** Vocabulary of the statements *)

Section Vocabulary.
Context {P : Type} `{ValuePredicate P}.

(** The frontier a path leaves on a root once all its steps are taken,
    before terminal enumeration. *)
Definition frontier (path_string : string) (source : value)
  : list outcome :=
  let (steps, enumerate) := parse_path path_string in
  traverse enumerate steps "" source.

(** The candidates handed to the builder, in order; none for a [None]
    root. *)
Definition candidates (pp : PathPredicate P) (source : value)
  : list outcome :=
  match source with
  | VNone => []
  | _ => let (steps, enumerate) := parse_path (path pp) in
         collect_values enumerate steps source
  end.

(** The candidates that resolved along the path. *)
Definition resolved (pp : PathPredicate P) (source : value)
  : list PathValue :=
  flat_map (fun o => match o with
                     | Reached pv => [pv]
                     | Stopped _ _ _ => []
                     end) (candidates pp source).

Definition rejection (pp : PathPredicate P) (source : value)
    (pv : PathValue) : CandidateResult P :=
  ValueResult (mkPathValueResult (pred pp) source (path pp) pv false).

Definition accepted (pp : PathPredicate P) (os : list outcome)
  : list PathValue :=
  flat_map (fun o => match o with
                     | Reached pv =>
                         if filter_valid pp (pv_value pv) then [pv] else []
                     | Stopped _ _ _ => []
                     end) os.

Definition refused (pp : PathPredicate P) (source : value)
    (os : list outcome) : list (CandidateResult P) :=
  flat_map (fun o => match o with
                     | Reached pv =>
                         if filter_valid pp (pv_value pv) then []
                         else [rejection pp source pv]
                     | Stopped s k pv => [MissingPathError s k pv]
                     end) os.

Definition is_missing (r : CandidateResult P) : bool :=
  match r with
  | MissingPathError _ _ _ => true
  | ValueResult _ => false
  end.

(** The number of objects of a list that satisfy a predicate. *)
Definition count_satisfying (c : P) (objs : list value) : nat :=
  length (filter (pred_call c) objs).

Definition constraint_ok (object_list : list value) (c : Constraint)
  : bool :=
  valid (eval_constraint c object_list).

(** The results of the constraints on an object list, in declaration
    order. *)
Definition results_of (object_list : list value) (cs : list Constraint)
  : list (PathPredicateResult P) :=
  map (fun c => eval_constraint c object_list) cs.

Definition not_valid (r : PathPredicateResult P) : bool := negb (valid r).

(** The observed objects the path values of the successful results lie
    in. *)
Definition validated_values (rs : list (PathPredicateResult P))
  : list value :=
  flat_map (fun r => if valid r then validated_objects_of r else []) rs.

(** The set of distinct validated objects, as the builder collects it. *)
Definition validated_by (rs : list (PathPredicateResult P))
  : list value :=
  fold_left set_add (validated_values rs) [].

(** Whether a strict verifier finds every object validated. *)
Definition covered (object_list : list value) (cs : list Constraint)
  : bool :=
  Nat.eqb (length (validated_by (results_of object_list cs)))
          (length object_list).

Definition all_items_pass (object_list : list value) (cs : list Constraint)
  : bool :=
  forallb (constraint_ok object_list) cs.

(** An object satisfies a constraint when the constraint is valid on the
    object alone, that is, on the one-object list. *)
Definition satisfies (c : Constraint) (o : value) : bool :=
  constraint_ok [o] c.

(** The constraints that judge the objects of a list one by one: a plain
    predicate, which the verifier applies to each object through an
    empty-path predicate, and a path predicate whose path starts with a key,
    so that it is looked up in each object in turn (with a marker, the path
    must have a further step: a marked single key is not distributed). *)
Inductive judges_each_object : Constraint -> Prop :=
| judges_plain (p : P) : judges_each_object (Plain p)
| judges_path (pp : PathPredicate P) (k : string) (rest : list step)
              (enumerate : bool) :
    parse_path (path pp) = (Key k :: rest, enumerate) ->
    is_nil rest && negb enumerate = false ->
    judges_each_object (Produces (call pp)).

(** The value of an outcome, if it reached one. *)
Definition out_value (o : outcome) : option value :=
  match o with
  | Reached pv => Some (pv_value pv)
  | Stopped _ _ _ => None
  end.

(** An outcome, if it reached a value, did so at a path below [p]. *)
Definition below (p : string) (o : outcome) : Prop :=
  match o with
  | Reached pv => exists t, pv_path pv = p ++ t
  | Stopped _ _ _ => True
  end.

(** The candidates a path predicate gives on a list are those of a function
    applied to each element at its index, whose values do not depend on the
    path it starts from and whose paths stay below it. *)
Definition elementwise (pp : PathPredicate P)
    (F : string -> value -> list outcome) : Prop :=
  (forall objs, candidates pp (VList objs) = distribute F "" 0 objs) /\
  (forall p v, Forall (below p) (F p v)) /\
  (forall p p' v, map out_value (F p v) = map out_value (F p' v)).
End Vocabulary.

Definition is_reached (o : outcome) : bool :=
  match o with Reached _ => true | Stopped _ _ _ => false end.

(** How a frontier entry goes on with further steps. *)
Definition continue_with (f : string -> value -> list outcome) (o : outcome)
  : list outcome :=
  match o with
  | Reached pv => f (pv_path pv) (pv_value pv)
  | Stopped _ _ _ => [o]
  end.

(** A single key lookup on one element. *)
Definition lookup_key (k : string) (x : value) : option value :=
  match x with
  | VDict entries => dict_get k entries
  | _ => None
  end.

(** The path values a key lookup gives over the elements of a list reached at
    [q], counting from index [i]. *)
Fixpoint key_hits (q k : string) (i : nat) (items : list value)
  : list PathValue :=
  match items with
  | [] => []
  | x :: more =>
      match lookup_key k x with
      | Some y =>
          mkPathValue (join_key (q ++ index_suffix i) k) y
            :: key_hits q k (S i) more
      | None => key_hits q k (S i) more
      end
  end.

(** The errors of the elements on which the key does not resolve. *)
Fixpoint key_misses {P : Type} (q k : string) (i : nat) (items : list value)
  : list (CandidateResult P) :=
  match items with
  | [] => []
  | x :: more =>
      match lookup_key k x with
      | Some _ => key_misses q k (S i) more
      | None =>
          MissingPathError x k (mkPathValue (q ++ index_suffix i) x)
            :: key_misses q k (S i) more
      end
  end.

(** An element that is not a list and holds no list under the key. *)
Definition plain_element (k : string) (x : value) : Prop :=
  is_list x = false /\
  forall y, lookup_key k x = Some y -> is_list y = false.

(** ** The data of the unit tests *)

Module TestData.
Definition _LETTER_DICT : value :=
  VDict [("a", VStr "A"); ("b", VStr "B"); ("z", VStr "Z")].
Definition _NUMBER_DICT : value :=
  VDict [("a", VNum 1); ("b", VNum 2); ("three", VNum 3)].
Definition letters : value := VList [VStr "A"; VStr "B"; VStr "C"].
Definition outer_source : value :=
  VDict [("outer", VList [_LETTER_DICT; _NUMBER_DICT])].

(** The predicates the tests apply to values.  [TestEquals operand] is
    [TestEqualsPredicate(operand)] of path_predicate_test.py;
    [PathEq path operand] is [PathEqPredicate(path, operand)], a path
    predicate filtered by equality, valid when some value passes; [IF] is
    the conditional of section 4.3, valid iff the condition is invalid or
    the consequence is valid. *)
Inductive TestPredicate : Type :=
| TestEquals (operand : value)
| PathEq (path_string : string) (operand : value)
| IF (condition consequence : TestPredicate).

Definition equals_call : ValuePredicate value :=
  fun operand v => py_eq v operand.

Fixpoint test_call (p : TestPredicate) (v : value) : bool :=
  match p with
  | TestEquals operand => py_eq v operand
  | PathEq path_string operand =>
      valid (@call value equals_call
               (mkPathPredicate path_string (Some operand)) v)
  | IF condition consequence =>
      negb (test_call condition v) || test_call consequence v
  end.

#[export] Instance TestPredicate_call : ValuePredicate TestPredicate :=
  test_call.

Definition no_filter (p : string) : PathPredicate TestPredicate :=
  mkPathPredicate p None.

(** value_observation_verifier_test.py,
    [test_object_observation_verifier_with_conditional]. *)
Definition conditional : TestPredicate :=
  IF (PathEq "name" (VStr "NAME")) (PathEq "value" (VStr "VALUE")).
Definition match_name_value_obj : value :=
  VDict [("name", VStr "NAME"); ("value", VStr "VALUE")].
Definition match_value_not_name_obj : value :=
  VDict [("name", VStr "GOOD"); ("value", VStr "VALUE")].
Definition match_neither_obj : value :=
  VDict [("name", VStr "GOOD"); ("value", VStr "GOOD")].
Definition match_name_not_value_obj : value :=
  VDict [("name", VStr "NAME"); ("value", VStr "BAD")].

Definition conditional_verifier (is_strict : bool)
  : ValueObservationVerifier :=
  mkVerifier "Test Conditional" [Plain conditional] is_strict.

(** Shorthands and data of path_predicate_test.py. *)
Definition values_of (p : string) (source : value) : list PathValue :=
  path_values (call (no_filter p) source).
Definition failures_of (p : string) (source : value)
  : list (CandidateResult TestPredicate) :=
  path_failures (call (no_filter p) source).

Definition arabic : value := VList [VNum 1; VNum 2; VNum 3].
Definition roman : value := VList [VStr "i"; VStr "ii"; VStr "iii"].
Definition nested_source : value :=
  VList [VList [letters; VList [VStr "a"; VStr "b"; VStr "c"]];
         VList [arabic; roman]].

Definition filter_pred : TestPredicate := TestEquals (VNum 2).
Definition filtered : PathPredicate TestPredicate :=
  mkPathPredicate "outer/b" (Some filter_pred).

(** Further data: a list whose only element holds a list under the key,
    a list of two equal objects, an observation that failed. *)
Definition list_under_key : value :=
  VDict [("outer", VList [VDict [("a", VList [VNum 1; VNum 2])]])].
Definition strict_equals_2 : ValueObservationVerifier :=
  mkVerifier "T" [Plain (TestEquals (VNum 2))] true.
Definition failed_observation : Observation :=
  mkObservation [_LETTER_DICT] ["HTTP 500"].
Definition shortfall_observation : Observation :=
  mkObservation [match_neither_obj; match_name_not_value_obj] [].
Definition list_of_list_holder : value :=
  VList [VDict [("a", VList [VNum 1; VNum 2])]].
End TestData.
Import TestData.

(** ** The verifier builder *)

(** Python exceptions raised by the builder. *)
Inductive Exception : Type :=
| TypeError (message : string).

Section Builder.
(** The predicate objects.  Their classes live in [citest.json_predicate],
    outside the sources: the constructors the builder calls are taken as
    parameters, as are the [dnf_verifiers] of the base class. *)
Variable Pred : Type.
Variable Dnf : Type.
Variable new_PathPredicate : string -> Pred -> Pred.
Variable new_CardinalityPredicate : Pred -> Z -> option Z -> Pred.
Variables CONTAINS EQUIVALENT : value -> Pred.
Variable AND : list Pred -> Pred.

(** What a caller may hand to [add_constraint]: a [ValuePredicate], or an
    object of some other class. *)
Inductive PyObject : Type :=
| PredicateObject (p : Pred)
| OtherObject (class_name : string).

(** Python lists are shared by reference.  The heap holds the constraint
    lists; a builder and the verifiers built from it hold a reference. *)
Definition ListRef : Type := nat.
Definition Heap : Type := list (list Pred).

Definition heap_read (h : Heap) (r : ListRef) : list Pred := nth r h [].

(** [list.append] on the list at [r]. *)
Fixpoint heap_append (h : Heap) (r : ListRef) (c : Pred) : Heap :=
  match h, r with
  | [], _ => []
  | l :: rest, 0 => (l ++ [c])%list :: rest
  | l :: rest, S r' => l :: heap_append rest r' c
  end.

(** A fresh empty list. *)
Definition heap_alloc (h : Heap) : ListRef * Heap :=
  (length h, (h ++ [[]])%list).

(** Computations on the heap that may raise. *)
Definition Py (A : Type) : Type := Heap -> (Exception + A) * Heap.

Definition ret {A} (a : A) : Py A := fun h => (inr a, h).

Definition raise {A} (e : Exception) : Py A := fun h => (inl e, h).

Definition bind {A B} (m : Py A) (k : A -> Py B) : Py B :=
  fun h =>
    match m h with
    | (inr a, h') => k a h'
    | (inl e, h') => (inl e, h')
    end.

Record BuilderObject : Type := mkBuilderObject {
  bo_title : string;
  bo_strict : bool;
  bo_constraints : ListRef }.

Record VerifierObject : Type := mkVerifierObject {
  vo_title : string;
  vo_dnf_verifiers : Dnf;
  vo_constraints : ListRef;
  vo_strict : bool }.

(** [ValueObservationVerifierBuilder.__init__], lines 27-40. *)
Definition builder_init (t : string) (is_strict : bool) : Py BuilderObject :=
  fun h =>
    let (r, h') := heap_alloc h in
    (inr (mkBuilderObject t is_strict r), h').

(** [add_constraint], lines 70-75. *)
Definition add_constraint_call (self : BuilderObject) (constraint : PyObject)
  : Py BuilderObject :=
  match constraint with
  | OtherObject class_name =>
      raise (TypeError (class_name ++ " is not predicate.ValuePredicate"))
  | PredicateObject p =>
      fun h => (inr self, heap_append h (bo_constraints self) p)
  end.

(** [contains_path_pred], lines 85-89 (defaults [min=1], [max=None]). *)
Definition contains_path_pred (self : BuilderObject) (path_string : string)
    (p : Pred) (min : Z) (max : option Z) : Py BuilderObject :=
  bind (add_constraint_call self
          (PredicateObject
             (new_CardinalityPredicate (new_PathPredicate path_string p)
                                       min max)))
       (fun _ => ret self).

(** [contains_path_value], lines 77-79. *)
Definition contains_path_value (self : BuilderObject) (path_string : string)
    (v : value) (min : Z) (max : option Z) : Py BuilderObject :=
  contains_path_pred self path_string (CONTAINS v) min max.

(** [contains_path_eq], lines 81-83. *)
Definition contains_path_eq (self : BuilderObject) (path_string : string)
    (v : value) (min : Z) (max : option Z) : Py BuilderObject :=
  contains_path_pred self path_string (EQUIVALENT v) min max.

(** [contains_pred_list], lines 91-96. *)
Definition contains_pred_list (self : BuilderObject) (pred_list : list Pred)
    (min : Z) (max : option Z) : Py BuilderObject :=
  let conjunction := AND pred_list in
  bind (add_constraint_call self
          (PredicateObject (new_CardinalityPredicate conjunction min max)))
       (fun _ => ret self).

(** [excludes_path_pred], lines 98-102 (default [max=0]). *)
Definition excludes_path_pred (self : BuilderObject) (path_string : string)
    (p : Pred) (max : option Z) : Py BuilderObject :=
  bind (add_constraint_call self
          (PredicateObject
             (new_CardinalityPredicate (new_PathPredicate path_string p)
                                       0%Z max)))
       (fun _ => ret self).

(** [excludes_path_value], lines 104-106. *)
Definition excludes_path_value (self : BuilderObject) (path_string : string)
    (v : value) (max : option Z) : Py BuilderObject :=
  excludes_path_pred self path_string (CONTAINS v) max.

(** [excludes_path_eq], lines 108-110. *)
Definition excludes_path_eq (self : BuilderObject) (path_string : string)
    (v : value) (max : option Z) : Py BuilderObject :=
  excludes_path_pred self path_string (EQUIVALENT v) max.

(** [excludes_pred_list], lines 112-117. *)
Definition excludes_pred_list (self : BuilderObject) (pred_list : list Pred)
    (max : option Z) : Py BuilderObject :=
  let conjunction := AND pred_list in
  bind (add_constraint_call self
          (PredicateObject (new_CardinalityPredicate conjunction 0%Z max)))
       (fun _ => ret self).

(** [_do_build_generate], lines 48-54, with the constructor of the verifier,
    lines 143-164: the verifier keeps the list it is given, not a copy. *)
Definition _do_build_generate (self : BuilderObject) (dnf_verifiers : Dnf)
  : Py VerifierObject :=
  ret (mkVerifierObject (bo_title self) dnf_verifiers (bo_constraints self)
                        (bo_strict self)).

(** The [constraints] property of the verifier, lines 121-123. *)
Definition verifier_constraints (v : VerifierObject) : Py (list Pred) :=
  fun h => (inr (heap_read h (vo_constraints v)), h).

(** The calls a client chains on a builder, each returning the builder. *)
Inductive BuilderCall : Type :=
| AddConstraint (constraint : PyObject)
| ContainsPathValue (path_string : string) (v : value) (min : Z)
                    (max : option Z)
| ContainsPathEq (path_string : string) (v : value) (min : Z)
                 (max : option Z)
| ContainsPathPred (path_string : string) (p : Pred) (min : Z)
                   (max : option Z)
| ContainsPredList (pred_list : list Pred) (min : Z) (max : option Z)
| ExcludesPathPred (path_string : string) (p : Pred) (max : option Z)
| ExcludesPathValue (path_string : string) (v : value) (max : option Z)
| ExcludesPathEq (path_string : string) (v : value) (max : option Z)
| ExcludesPredList (pred_list : list Pred) (max : option Z).

Definition perform (self : BuilderObject) (c : BuilderCall)
  : Py BuilderObject :=
  match c with
  | AddConstraint x => add_constraint_call self x
  | ContainsPathValue p v min max => contains_path_value self p v min max
  | ContainsPathEq p v min max => contains_path_eq self p v min max
  | ContainsPathPred p q min max => contains_path_pred self p q min max
  | ContainsPredList l min max => contains_pred_list self l min max
  | ExcludesPathPred p q max => excludes_path_pred self p q max
  | ExcludesPathValue p v max => excludes_path_value self p v max
  | ExcludesPathEq p v max => excludes_path_eq self p v max
  | ExcludesPredList l max => excludes_pred_list self l max
  end.

(** [builder.m1(...).m2(...). ...]: each call is made on what the previous
    one returned. *)
Fixpoint chain (self : BuilderObject) (calls : list BuilderCall)
  : Py BuilderObject :=
  match calls with
  | [] => ret self
  | c :: more => bind (perform self c) (fun self' => chain self' more)
  end.

(** The constraint a call asks for, when it passes a predicate. *)
Definition requested (c : BuilderCall) : option Pred :=
  match c with
  | AddConstraint (PredicateObject p) => Some p
  | AddConstraint (OtherObject _) => None
  | ContainsPathValue p v min max =>
      Some (new_CardinalityPredicate (new_PathPredicate p (CONTAINS v))
                                     min max)
  | ContainsPathEq p v min max =>
      Some (new_CardinalityPredicate (new_PathPredicate p (EQUIVALENT v))
                                     min max)
  | ContainsPathPred p q min max =>
      Some (new_CardinalityPredicate (new_PathPredicate p q) min max)
  | ContainsPredList l min max =>
      Some (new_CardinalityPredicate (AND l) min max)
  | ExcludesPathPred p q max =>
      Some (new_CardinalityPredicate (new_PathPredicate p q) 0%Z max)
  | ExcludesPathValue p v max =>
      Some (new_CardinalityPredicate (new_PathPredicate p (CONTAINS v))
                                     0%Z max)
  | ExcludesPathEq p v max =>
      Some (new_CardinalityPredicate (new_PathPredicate p (EQUIVALENT v))
                                     0%Z max)
  | ExcludesPredList l max =>
      Some (new_CardinalityPredicate (AND l) 0%Z max)
  end.

Definition passes_predicate (c : BuilderCall) : bool :=
  match requested c with Some _ => true | None => false end.

Definition requested_all (calls : list BuilderCall) : list Pred :=
  flat_map (fun c => match requested c with
                     | Some p => [p]
                     | None => []
                     end) calls.

(** [export_to_json_snapshot] of the builder, lines 56-68, and of the
    verifier, lines 129-135: the controls made on the entity before the
    export of the base class takes over. *)
Inductive ControlValue : Type :=
| BoolControl (b : bool)
| PredicateControl (p : Pred)
| PredicateListControl (l : list Pred).

Definition builder_export (self : BuilderObject) (h : Heap)
  : list (string * ControlValue) :=
  [("Strict", BoolControl (bo_strict self));
   match heap_read h (bo_constraints self) with
   | [only] => ("Constraint", PredicateControl only)
   | cs => ("Constraints", PredicateListControl cs)
   end].

Definition verifier_export (v : VerifierObject) (h : Heap)
  : list (string * ControlValue) :=
  [("Strict", BoolControl (vo_strict v));
   ("Constraints", PredicateListControl (heap_read h (vo_constraints v)))].
End Builder.

Arguments PredicateObject {Pred}.
Arguments OtherObject {Pred}.
Arguments mkVerifierObject {Dnf}.
Arguments vo_title {Dnf}.
Arguments vo_dnf_verifiers {Dnf}.
Arguments vo_constraints {Dnf}.
Arguments vo_strict {Dnf}.
Arguments heap_read {Pred}.
Arguments heap_append {Pred}.
Arguments heap_alloc {Pred}.
Arguments ret {Pred A}.
Arguments raise {Pred A}.
Arguments bind {Pred A B}.
Arguments builder_init {Pred}.
Arguments add_constraint_call {Pred}.
Arguments _do_build_generate {Pred Dnf}.
Arguments verifier_constraints {Pred Dnf}.
Arguments BoolControl {Pred}.
Arguments PredicateControl {Pred}.
Arguments PredicateListControl {Pred}.
Arguments verifier_export {Pred Dnf}.
Arguments builder_export {Pred}.

(** The verifier a verifier object stands for in a given heap, when the
    predicate objects are constraints. *)
Definition verifier_in {P Dnf : Type} (h : Heap (@Constraint P))
    (v : @VerifierObject Dnf) : @ValueObservationVerifier P :=
  mkVerifier (vo_title v) (heap_read h (vo_constraints v)) (vo_strict v).


(** ** Data for the builder and for several constraints *)

Module BuilderTestData.
(** The predicate objects of value_observation_verifier_test.py, as terms. *)
#[warnings="-register-all"] Inductive Term : Type :=
| STR_EQ (s : string)
| TermCONTAINS (v : value)
| TermEQUIVALENT (v : value)
| TermPathPredicate (path_string : string) (p : Term)
| TermCardinalityPredicate (inner : Term) (min : Z) (max : option Z)
| TermAND (l : list Term).

Definition perform_term := perform Term TermPathPredicate
  TermCardinalityPredicate TermCONTAINS TermEQUIVALENT TermAND.
Definition chain_term := chain Term TermPathPredicate
  TermCardinalityPredicate TermCONTAINS TermEQUIVALENT TermAND.
Definition requested_all_term := requested_all Term TermPathPredicate
  TermCardinalityPredicate TermCONTAINS TermEQUIVALENT TermAND.

Definition aA : Term := TermPathPredicate "a" (STR_EQ "A").
Definition bB : Term := TermPathPredicate "b" (STR_EQ "B").

(** [test_verifier_builder_contains_pred_list]. *)
Definition contains_calls : list (BuilderCall Term) :=
  [ContainsPathPred Term "a" (STR_EQ "A") 1%Z None;
   ContainsPathPred Term "b" (STR_EQ "B") 1%Z None].

Definition one_builder : BuilderObject := mkBuilderObject "TestBuilder" false 0.

(** Constraints on values, for the verifier. *)
Definition a_is_A : TestPredicate := PathEq "a" (VStr "A").
Definition b_is_2 : TestPredicate := PathEq "b" (VNum 2).
Definition two_dicts : list value := [_LETTER_DICT; _NUMBER_DICT].
Definition two_constraints : list (@Constraint TestPredicate) :=
  [Plain a_is_A; Plain b_is_2].

(** Constructors on constraints, to run a builder whose predicate objects
    are constraints of the verifier.  A cardinality predicate bounds the
    number of path values of its inner predicate; a conjunction is valid when
    all its members are. *)
Definition apply_constraint (c : @Constraint TestPredicate) (source : value)
  : PathPredicateResult TestPredicate :=
  match c with
  | Produces f => f source
  | Plain p => call (mkPathPredicate "" (Some p)) source
  end.

Definition in_bounds (n : nat) (min : Z) (max : option Z) : bool :=
  (min <=? Z.of_nat n)%Z
  && match max with Some m => (Z.of_nat n <=? m)%Z | None => true end.

Definition test_path (path_string : string) (c : @Constraint TestPredicate)
  : @Constraint TestPredicate :=
  match c with
  | Plain p => Produces (call (mkPathPredicate path_string (Some p)))
  | Produces f => Produces f
  end.

Definition test_cardinality (inner : @Constraint TestPredicate) (min : Z)
    (max : option Z) : @Constraint TestPredicate :=
  Produces (fun source =>
              let r := apply_constraint inner source in
              mkPathPredicateResult
                (in_bounds (length (path_values r)) min max)
                (ppr_source r) (ppr_pred r) (path_values r)
                (path_failures r)).

Definition test_equals (v : value) : @Constraint TestPredicate :=
  Plain (TestEquals v).

Definition test_and (l : list (@Constraint TestPredicate))
  : @Constraint TestPredicate :=
  Produces (fun source =>
              mkPathPredicateResult
                (forallb (fun c => valid (apply_constraint c source)) l)
                source (mkPathPredicate "" None)
                (flat_map (fun c => path_values (apply_constraint c source))
                          l)
                (flat_map (fun c => path_failures (apply_constraint c source))
                          l)).

Definition later_calls : list (BuilderCall (@Constraint TestPredicate)) :=
  [ContainsPathPred _ "b" (Plain (TestEquals (VNum 2))) 1%Z None].

Definition clean_observation : Observation :=
  mkObservation [match_name_value_obj; match_neither_obj] [].

(** Path predicates as constraints: [PathPredicate('a', equals 'A')], which
    is looked up in each object, and one that names the first object. *)
Definition a_equals_A : @Constraint TestPredicate :=
  Produces (call (mkPathPredicate "a" (Some (TestEquals (VStr "A"))))).
Definition first_a_equals_A : @Constraint TestPredicate :=
  Produces (call (mkPathPredicate "[0]/a" (Some (TestEquals (VStr "A"))))).
Definition two_with_a_A : list value :=
  [VDict [("a", VStr "A")]; VDict [("a", VStr "A"); ("b", VStr "B")]].
End BuilderTestData.
Import BuilderTestData.

(** * Properties *)

(** ** The result of a call, in closed form *)

Section CallFacts.
Context {P : Type} `{ValuePredicate P}.
Implicit Types (pp : PathPredicate P) (source : value) (os : list outcome).

Lemma fold_offer pp source os : forall b,
  fold_left (offer pp source) os b =
  mkPPRBuilder (bld_source b) (bld_pred b)
               (bld_values b ++ accepted pp os)%list
               (bld_failures b ++ refused pp source os)%list.
Proof.
  induction os as [|o os IH]; intros b; simpl.
  - rewrite !app_nil_r. now destruct b.
  - rewrite IH. destruct o as [pv | s k pv]; simpl.
    + unfold add_result_candidate, rejection; simpl.
      destruct (filter_valid pp (pv_value pv)); simpl;
        now rewrite <- ?app_assoc.
    + unfold add_result_candidate; simpl. now rewrite <- app_assoc.
Qed.

Lemma call_closed_form pp source :
  call pp source =
  mkPathPredicateResult
    (negb (is_nil (accepted pp (candidates pp source))))
    source pp
    (accepted pp (candidates pp source))
    (refused pp source (candidates pp source)).
Proof.
  unfold call, candidates.
  destruct source; try reflexivity;
    destruct (parse_path (path pp)) as [steps enumerate];
    rewrite fold_offer; reflexivity.
Qed.

Lemma accepted_app pp os1 os2 :
  accepted pp (os1 ++ os2) = (accepted pp os1 ++ accepted pp os2)%list.
Proof. unfold accepted. now rewrite flat_map_app. Qed.

Lemma refused_app pp source os1 os2 :
  refused pp source (os1 ++ os2) =
  (refused pp source os1 ++ refused pp source os2)%list.
Proof. unfold refused. now rewrite flat_map_app. Qed.

(** Without a filter every resolved candidate is accepted. *)
Lemma accepted_reached pp pvs :
  pred pp = None -> accepted pp (map Reached pvs) = pvs.
Proof.
  intros Hnone. unfold accepted, filter_valid. rewrite Hnone.
  induction pvs as [|pv pvs IH]; simpl; [reflexivity | now f_equal].
Qed.

Lemma refused_reached pp source pvs :
  pred pp = None -> refused pp source (map Reached pvs) = [].
Proof.
  intros Hnone. unfold refused, filter_valid. rewrite Hnone.
  induction pvs as [|pv pvs IH]; simpl; [reflexivity | exact IH].
Qed.

Lemma length_accepted_refused pp source os :
  length (accepted pp os) + length (refused pp source os) = length os.
Proof.
  induction os as [|o os IH]; simpl; [reflexivity|].
  rewrite !length_app.
  destruct o as [pv | s k pv]; simpl;
    [destruct (filter_valid pp (pv_value pv)); simpl|]; lia.
Qed.
End CallFacts.

(** ** Path syntax *)

Lemma strip_marker_append (s : string) :
  strip_marker (s ++ marker_string) = (s, false).
Proof.
  induction s as [|c s IH]; [reflexivity|].
  change ((String c s) ++ marker_string) with (String c (s ++ marker_string)).
  cbn [strip_marker]. rewrite IH.
  destruct s; reflexivity.
Qed.

Lemma strip_marker_plain (s : string) :
  snd (strip_marker s) = true -> strip_marker s = (s, true).
Proof.
  induction s as [|c s IH]; [reflexivity|].
  destruct s as [|d s].
  - cbn. destruct (Ascii.eqb c DONT_ENUMERATE_TERMINAL); [discriminate | reflexivity].
  - change (strip_marker (String c (String d s)))
      with (let (r, e) := strip_marker (String d s) in (String c r, e)).
    destruct (strip_marker (String d s)) as [r e] eqn:E.
    simpl. intros ->. specialize (IH eq_refl). now inversion IH.
Qed.

Lemma parse_path_marked (s : string) :
  parse_path (s ++ marker_string) = (steps_of_path s, false).
Proof. unfold parse_path. now rewrite strip_marker_append. Qed.

Lemma parse_path_plain (s : string) :
  snd (strip_marker s) = true -> parse_path s = (steps_of_path s, true).
Proof. intros Hs. unfold parse_path. now rewrite (strip_marker_plain s Hs). Qed.

(** ** Traversal *)

Lemma traverse_key_list (e : bool) (k : string) (rest : list step)
    (p : string) (items : list value) :
  traverse e (Key k :: rest) p (VList items) =
  if negb (is_nil rest && negb e)
  then distribute (traverse e (Key k :: rest)) p 0 items
  else [Stopped (VList items) k (mkPathValue p (VList items))].
Proof. reflexivity. Qed.

Lemma traverse_key_dict (e : bool) (k : string) (rest : list step)
    (p : string) (entries : list (string * value)) :
  traverse e (Key k :: rest) p (VDict entries) =
  match dict_get k entries with
  | Some x => traverse e rest (join_key p k) x
  | None => [Stopped (VDict entries) k (mkPathValue p (VDict entries))]
  end.
Proof. reflexivity. Qed.

Lemma distribute_cons (f : string -> value -> list outcome) (p : string)
    (i : nat) (x : value) (more : list value) :
  distribute f p i (x :: more) =
  List.app (f (p ++ index_suffix i) x) (distribute f p (S i) more).
Proof. reflexivity. Qed.

(** Two functions that agree on the elements distribute alike. *)
Lemma distribute_ext (f g : string -> value -> list outcome) (p : string)
    (items : list value) :
  Forall (fun x => forall q, f q x = g q x) items ->
  forall i, distribute f p i items = distribute g p i items.
Proof.
  induction 1 as [|x more Hx _ IH]; intros i; [reflexivity|].
  rewrite !distribute_cons. now rewrite Hx, IH.
Qed.

Lemma distribute_flat_map (g : outcome -> list outcome)
    (f : string -> value -> list outcome) (p : string) (items : list value) :
  forall i,
    flat_map g (distribute f p i items) =
    distribute (fun q x => flat_map g (f q x)) p i items.
Proof.
  induction items as [|x more IH]; intros i; [reflexivity|].
  rewrite !distribute_cons, flat_map_app. now rewrite IH.
Qed.

(** A traversal never leaves a [None] root. *)
Lemma traverse_none (e : bool) (steps : list step) (p : string) :
  traverse e steps p VNone = [Reached (mkPathValue p VNone)] \/
  exists k, traverse e steps p VNone = [Stopped VNone k (mkPathValue p VNone)].
Proof.
  destruct steps as [|[k|i] rest]; [now left | right; now exists k |].
  right. now exists (index_suffix i).
Qed.

Lemma traverse_reaches_list_not_none (e : bool) (steps : list step)
    (source : value) (p : string) (items : list value) :
  traverse e steps "" source = [Reached (mkPathValue p (VList items))] ->
  source <> VNone.
Proof.
  intros Ht ->. destruct (traverse_none e steps "") as [E | [k E]];
    rewrite E in Ht; discriminate.
Qed.

(** When the traversal of a marked path stops nowhere, the marker made no
    difference to it. *)
Lemma traverse_marker_free (steps : list step) : forall p v,
  forallb is_reached (traverse false steps p v) = true ->
  traverse true steps p v = traverse false steps p v.
Proof.
  induction steps as [|st rest IH]; [reflexivity|].
  destruct st as [k|i].
  - destruct rest as [|st' rest'].
    + intros p v Hall. destruct v; try reflexivity. discriminate Hall.
    + intros p v; revert p.
      induction v as [| | | |items IHitems|entries _] using value_nested_ind;
        intros p Hall; try reflexivity.
      * rewrite !traverse_key_list in *. cbn [is_nil andb negb] in *.
        revert Hall. generalize 0.
        induction IHitems as [|x more Hx _ IHmore]; intros i Hall;
          [reflexivity|].
        rewrite !distribute_cons in *. rewrite forallb_app in Hall.
        apply andb_prop in Hall as [Hl Hr].
        now rewrite (Hx _ Hl), (IHmore _ Hr).
      * rewrite !traverse_key_dict in *.
        destruct (dict_get k entries); [now apply IH | reflexivity].
  - intros p v Hall. destruct v; try reflexivity. simpl in *.
    destruct (nth_error items i); [now apply IH | reflexivity].
Qed.

(** Unmarked traversal composes: the steps of a suffix continue from the
    frontier of the prefix. *)
Lemma traverse_app (a b : list step) : forall p v,
  traverse true (a ++ b) p v =
  flat_map (continue_with (traverse true b)) (traverse true a p v).
Proof.
  induction a as [|st a IH]; intros p v.
  - simpl. now rewrite app_nil_r.
  - destruct st as [k|i].
    + revert p.
      induction v as [| | | |items IHitems|entries _] using value_nested_ind;
        intros p; try reflexivity.
      * change ((Key k :: a) ++ b)%list with (Key k :: (a ++ b))%list.
        rewrite !traverse_key_list, !andb_false_r. cbn [negb].
        rewrite distribute_flat_map. now apply distribute_ext.
      * change ((Key k :: a) ++ b)%list with (Key k :: (a ++ b))%list.
        rewrite !traverse_key_dict.
        destruct (dict_get k entries); [apply IH | reflexivity].
    + destruct v; try reflexivity. simpl.
      destruct (nth_error items i); [apply IH | reflexivity].
Qed.

(** ** Path predicates *)

Section PathPredicateLaws.
Context {P : Type} `{ValuePredicate P}.
Implicit Types (pp : PathPredicate P) (source root : value).

Lemma candidates_of_root pp root :
  root <> VNone ->
  candidates pp root =
  collect_values (snd (parse_path (path pp))) (fst (parse_path (path pp)))
                 root.
Proof.
  intros Hroot. unfold candidates.
  destruct (parse_path (path pp)) as [steps e].
  destruct root; try reflexivity. now contradiction Hroot.
Qed.

Lemma unfiltered_failures_are_missing pp source (os : list outcome) :
  pred pp = None -> forallb is_missing (refused pp source os) = true.
Proof.
  intros Hnone. unfold refused, filter_valid. rewrite Hnone.
  induction os as [|o os IH]; [reflexivity|].
  cbn [flat_map]. rewrite forallb_app, IH, andb_true_r.
  now destruct o.
Qed.

Lemma terminal_plain (p : string) (y : value) :
  is_list y = false ->
  terminal true (Reached (mkPathValue p y)) = [Reached (mkPathValue p y)].
Proof. destruct y; try reflexivity. discriminate. Qed.

Lemma key_lookup_outcomes pp source (q k : string) (items : list value) :
  Forall (plain_element k) items ->
  forall i,
    let os := flat_map (terminal true)
                (distribute (traverse true [Key k]) q i items) in
    accepted pp os
      = filter (fun pv => filter_valid pp (pv_value pv))
               (key_hits q k i items) /\
    filter is_missing (refused pp source os) = key_misses q k i items /\
    length os = length items.
Proof.
  intros Hall.
  induction Hall as [|x more [Hx Hy] _ IH]; intros i; [now repeat split|].
  destruct (IH (S i)) as (IHa & IHr & IHl). cbv zeta in *.
  rewrite distribute_cons, flat_map_app, accepted_app, refused_app,
    filter_app, length_app.
  rewrite IHa, IHr, IHl. cbn [key_hits key_misses].
  destruct x as [| | | |items|entries];
    try (repeat split; reflexivity); [discriminate|].
  rewrite traverse_key_dict. cbn [lookup_key] in *.
  destruct (dict_get k entries) as [y|]; [|repeat split; reflexivity].
  cbn [traverse flat_map]. rewrite app_nil_r.
  rewrite (terminal_plain _ y (Hy y eq_refl)).
  unfold accepted, refused. cbn [flat_map filter pv_value app].
  destruct (filter_valid pp y); repeat split; reflexivity.
Qed.

Lemma length_indexed_from (p : string) (items : list value) : forall j,
  length (indexed_from p j items) = length items.
Proof.
  induction items as [|x items IH]; intros j; cbn; [reflexivity|].
  now rewrite IH.
Qed.

Lemma nth_error_indexed_from (p : string) (items : list value) : forall j i,
  nth_error (indexed_from p j items) i
  = option_map (fun x => mkPathValue (p ++ index_suffix (j + i)) x)
               (nth_error items i).
Proof.
  induction items as [|x items IH]; intros j [|i]; cbn; try reflexivity.
  - now rewrite Nat.add_0_r.
  - rewrite IH. now rewrite Nat.add_succ_r.
Qed.

(** C6 (as amended).  With no filter and a root other than [None], the empty
    path and the path that is just the separator resolve to the root
    itself, as one path value with the empty path, when the root is not a
    list; a list root is enumerated, one path value per element at path
    [[i]]; nothing fails.  The marker alone as path gives the root whole,
    list or not. *)
Theorem empty_path_resolves_root pp root :
  pred pp = None ->
  root <> VNone ->
  ((path pp = "" \/ path pp = sep_string) ->
   path_values (call pp root) =
     match root with
     | VList items => indexed_from "" 0 items
     | _ => [mkPathValue "" root]
     end /\
   path_failures (call pp root) = []) /\
  (path pp = marker_string ->
   path_values (call pp root) = [mkPathValue "" root] /\
   path_failures (call pp root) = []).
Proof.
  intros Hnone Hroot. rewrite call_closed_form. cbn [path_values path_failures].
  rewrite (candidates_of_root pp root Hroot).
  split.
  - intros Hpath.
    assert (Hparse : parse_path (path pp) = ([], true))
      by (destruct Hpath as [-> | ->]; reflexivity).
    rewrite Hparse. cbn [fst snd]. unfold collect_values.
    cbn [traverse flat_map]. rewrite app_nil_r.
    destruct root; cbn [terminal];
      try (unfold accepted, refused, filter_valid; rewrite Hnone; now split).
    now rewrite accepted_reached, refused_reached.
  - intros ->. change (parse_path marker_string) with (@nil step, false).
    cbn [fst snd]. unfold collect_values. cbn [traverse flat_map].
    rewrite app_nil_r.
    assert (Hterm : terminal false (Reached (mkPathValue "" root))
                    = [Reached (mkPathValue "" root)])
      by (now destruct root).
    rewrite Hterm. unfold accepted, refused, filter_valid.
    rewrite Hnone. now split.
Qed.

(** C7 (as amended).  Take a path without the marker whose final step,
    with the marker appended, resolves to one list value [items] at path
    [p]; this leaves out a final key step applied through an unindexed list,
    which the marker keeps from being distributed.  Then the unmarked path
    resolves to the same list and, without a filter, gives exactly one path
    value per element, the [i]-th holding the [i]-th element at the
    index-suffixed path [p[i]], while the path with the marker appended gives
    exactly one path value, holding the whole list at [p]; neither has
    failures. *)
Theorem enumeration_law (path_string : string) root (p : string)
    (items : list value) :
  snd (strip_marker path_string) = true ->
  frontier (path_string ++ marker_string) root
    = [Reached (mkPathValue p (VList items))] ->
  let default := call (mkPathPredicate path_string (@None P)) root in
  let marked :=
    call (mkPathPredicate (path_string ++ marker_string) (@None P)) root in
  frontier path_string root = [Reached (mkPathValue p (VList items))] /\
  path_values default = indexed_from p 0 items /\
  length (path_values default) = length items /\
  (forall i x, nth_error items i = Some x ->
               nth_error (path_values default) i
               = Some (mkPathValue (p ++ "[" ++ decimal i ++ "]") x)) /\
  path_failures default = [] /\
  path_values marked = [mkPathValue p (VList items)] /\
  path_failures marked = [].
Proof.
  intros Hplain Hfront. unfold frontier in Hfront.
  rewrite parse_path_marked in Hfront.
  pose proof (traverse_reaches_list_not_none _ _ _ _ _ Hfront) as Hroot.
  assert (Hdefault : traverse true (steps_of_path path_string) "" root
                     = [Reached (mkPathValue p (VList items))]).
  { rewrite traverse_marker_free; [exact Hfront|]. now rewrite Hfront. }
  cbv zeta. rewrite !call_closed_form. cbn [path_values path_failures].
  rewrite !candidates_of_root by exact Hroot. cbn [path].
  unfold frontier.
  rewrite parse_path_marked, (parse_path_plain _ Hplain). cbn [fst snd].
  unfold collect_values. rewrite Hfront, Hdefault.
  cbn [flat_map terminal]. rewrite !app_nil_r.
  rewrite accepted_reached, refused_reached by reflexivity.
  split; [reflexivity|]. split; [reflexivity|].
  split; [apply length_indexed_from|].
  split; [|repeat split; reflexivity].
  intros i x Hi. rewrite nth_error_indexed_from, Hi. reflexivity.
Qed.

(** C8 (as amended).  Take a path without the marker whose steps before the
    last resolve to one list [items], reached at [q], and whose last step is
    the key [k].  When no element of the list is itself a list and none holds
    a list under [k], every element gives exactly one candidate: the path
    values are the values [q[i]/k] of the elements on which the key resolves
    (those the filter accepts, when there is a filter), the
    MissingPathErrors among the failures are one per element on which the key
    does not resolve, anchored at [q[i]], both in list order, and the lengths
    of [path_values] and [path_failures] add up to the length of the list.
    Without a filter every failure is a MissingPathError. *)
Theorem ambiguity_law pp root (prefix : list step) (k q : string)
    (items : list value) :
  parse_path (path pp) = ((prefix ++ [Key k])%list, true) ->
  traverse true prefix "" root = [Reached (mkPathValue q (VList items))] ->
  Forall (plain_element k) items ->
  path_values (call pp root)
    = filter (fun pv => filter_valid pp (pv_value pv))
             (key_hits q k 0 items) /\
  filter is_missing (path_failures (call pp root))
    = key_misses q k 0 items /\
  length (path_values (call pp root))
    + length (path_failures (call pp root)) = length items /\
  (pred pp = None ->
   path_values (call pp root) = key_hits q k 0 items /\
   path_failures (call pp root) = key_misses q k 0 items).
Proof.
  intros Hparse Hprefix Hall.
  pose proof (traverse_reaches_list_not_none _ _ _ _ _ Hprefix) as Hroot.
  rewrite call_closed_form. cbn [path_values path_failures].
  rewrite (candidates_of_root pp root Hroot), Hparse. cbn [fst snd].
  unfold collect_values. rewrite traverse_app, Hprefix.
  cbn [flat_map continue_with pv_path pv_value]. rewrite app_nil_r.
  rewrite traverse_key_list. cbn [is_nil andb negb].
  destruct (key_lookup_outcomes pp root q k items Hall 0) as (Ha & Hr & Hl).
  cbv zeta in Ha, Hr, Hl.
  split; [exact Ha|]. split; [exact Hr|].
  split; [rewrite length_accepted_refused; exact Hl|].
  intros Hnone. rewrite Ha, <- Hr. split.
  - apply forallb_filter_id. apply forallb_forall.
    intros pv _. unfold filter_valid. now rewrite Hnone.
  - symmetry. apply forallb_filter_id.
    apply (unfiltered_failures_are_missing pp root _ Hnone).
Qed.

(** C9 (as amended).  The path values of a result are the resolved
    candidates the filter accepts, in order; a candidate the filter rejects
    is not among them.  One entry per candidate is kept across
    [path_values] and [path_failures] together. *)
Theorem filter_keeps_accepted_candidates pp source :
  path_values (call pp source)
    = filter (fun pv => filter_valid pp (pv_value pv)) (resolved pp source)
  /\
  (forall pv, In pv (resolved pp source) ->
              filter_valid pp (pv_value pv) = false ->
              ~ In pv (path_values (call pp source))) /\
  length (path_values (call pp source))
    + length (path_failures (call pp source))
    = length (candidates pp source).
Proof.
  rewrite call_closed_form. cbn [path_values path_failures].
  assert (Hpv : accepted pp (candidates pp source)
                = filter (fun pv => filter_valid pp (pv_value pv))
                         (resolved pp source)).
  { unfold accepted, resolved.
    induction (candidates pp source) as [|o os IH]; [reflexivity|].
    cbn [flat_map]. rewrite filter_app, IH. f_equal.
    destruct o as [pv|]; [|reflexivity]. cbn [filter].
    now destruct (filter_valid pp (pv_value pv)). }
  repeat split.
  - exact Hpv.
  - intros pv _ Hrej Hin. rewrite Hpv in Hin.
    apply filter_In in Hin as [_ Hok]. congruence.
  - apply length_accepted_refused.
Qed.

(** C10.  A candidate that resolves along the path and that the filter
    rejects puts into [path_failures] a PathValueResult record with
    valid=false (carrying the filter, the root, the path of the predicate
    and the resolved path value), which is not a MissingPathError. *)
Theorem filter_rejection_is_a_failure pp source (f : P) (pv : PathValue) :
  pred pp = Some f ->
  In pv (resolved pp source) ->
  pred_call f (pv_value pv) = false ->
  In (ValueResult (mkPathValueResult (Some f) source (path pp) pv false))
     (path_failures (call pp source)) /\
  is_missing
    (ValueResult (mkPathValueResult (Some f) source (path pp) pv false))
    = false.
Proof.
  intros Hf Hin Hrej. split; [|reflexivity].
  rewrite call_closed_form. cbn [path_failures].
  unfold resolved in Hin. unfold refused.
  apply in_flat_map in Hin as [o [Ho Hpv]].
  apply in_flat_map. exists o. split; [exact Ho|].
  destruct o as [pv'|]; [|contradiction].
  destruct Hpv as [->|[]].
  unfold filter_valid, rejection. rewrite Hf, Hrej. now left.
Qed.
End PathPredicateLaws.

(** ** The object a path value lies in *)

Lemma string_append_assoc (a b c : string) : (a ++ b) ++ c = a ++ (b ++ c).
Proof. induction a as [|x a IH]; [reflexivity | cbn; now rewrite IH]. Qed.

Lemma string_append_nil_r (a : string) : a ++ EmptyString = a.
Proof. induction a as [|x a IH]; [reflexivity | cbn; now rewrite IH]. Qed.

Lemma until_bracket_digits (d : uint) (t : string) :
  until_bracket (NilEmpty.string_of_uint d ++ String "]"%char t)
  = Some (NilEmpty.string_of_uint d, t).
Proof. induction d; cbn; rewrite ?IHd; reflexivity. Qed.

Lemma decimal_not_empty (i : nat) : decimal i <> EmptyString.
Proof.
  unfold decimal. intros Hempty.
  pose proof (DecimalNat.Unsigned.of_to i) as Hback.
  destruct (Nat.to_uint i) eqn:E; cbn in Hempty; try discriminate Hempty.
  cbn in Hback. subst i. discriminate E.
Qed.

(** A path that starts with the suffix of index [i] starts at index [i]. *)
Lemma leading_index_suffix (i : nat) (t : string) :
  leading_index (index_suffix i ++ t) = Some i.
Proof.
  unfold index_suffix. rewrite !string_append_assoc.
  change ("[" ++ (decimal i ++ ("]" ++ t)))
    with (String "["%char (decimal i ++ String "]"%char t)).
  cbn [leading_index]. rewrite Ascii.eqb_refl.
  unfold decimal. rewrite until_bracket_digits.
  fold (decimal i).
  destruct (decimal i) eqn:E; [now apply decimal_not_empty in E|].
  rewrite <- E. unfold decimal. rewrite NilEmpty.usu. cbn.
  now rewrite DecimalNat.Unsigned.of_to.
Qed.

Lemma object_of_element (objs : list value) (i : nat) (o : value)
    (pv : PathValue) :
  nth_error objs i = Some o ->
  (exists t, pv_path pv = index_suffix i ++ t) ->
  object_of (VList objs) pv = [o].
Proof.
  intros Hnth [t Hpath]. unfold object_of.
  now rewrite Hpath, leading_index_suffix, Hnth.
Qed.

Lemma below_trans (p : string) (s : string) (o : outcome) :
  below (p ++ s) o -> below p o.
Proof.
  destruct o as [pv|]; [|trivial]. intros [t Ht]. exists (s ++ t).
  now rewrite Ht, string_append_assoc.
Qed.

Lemma below_join (p k : string) (o : outcome) :
  below (join_key p k) o -> below p o.
Proof.
  unfold join_key. destruct p as [|c p]; [|apply below_trans].
  destruct o as [pv|]; [|trivial]. intros _. now exists (pv_path pv).
Qed.

Lemma Forall_below_weaken (p q : string) (os : list outcome) :
  (forall o, below q o -> below p o) ->
  Forall (below q) os -> Forall (below p) os.
Proof. intros Hw. apply Forall_impl. exact Hw. Qed.

Lemma distribute_below (f : string -> value -> list outcome) (p : string)
    (items : list value) :
  Forall (fun x => forall q, Forall (below q) (f q x)) items ->
  forall i, Forall (below p) (distribute f p i items).
Proof.
  induction 1 as [|x more Hx _ IH]; intros i; [constructor|].
  rewrite distribute_cons. apply Forall_app. split; [|apply IH].
  apply (Forall_below_weaken p (p ++ index_suffix i));
    [apply below_trans | apply Hx].
Qed.

(** Every value a traversal reaches is reached at a path below the one it
    started from. *)
Lemma traverse_below (e : bool) (steps : list step) : forall p v,
  Forall (below p) (traverse e steps p v).
Proof.
  induction steps as [|st rest IH]; intros p v.
  - repeat constructor. exists EmptyString.
    cbn. now rewrite string_append_nil_r.
  - destruct st as [k|i].
    + revert p.
      induction v as [| | | |items IHitems|entries _] using value_nested_ind;
        intros p; try (repeat constructor).
      * rewrite traverse_key_list.
        destruct (negb (is_nil rest && negb e)); [|repeat constructor].
        now apply distribute_below.
      * rewrite traverse_key_dict.
        destruct (dict_get k entries) as [x|]; [|repeat constructor].
        apply (Forall_below_weaken p (join_key p k));
          [apply below_join | apply IH].
    + destruct v; try (repeat constructor). cbn.
      destruct (nth_error items i) as [x|]; [|repeat constructor].
      apply (Forall_below_weaken p (p ++ index_suffix i));
        [apply below_trans | apply IH].
Qed.

Lemma indexed_from_below (p : string) (items : list value) : forall i,
  Forall (below p) (map Reached (indexed_from p i items)).
Proof.
  induction items as [|x items IH]; intros i; cbn; constructor;
    [now exists (index_suffix i) | apply IH].
Qed.

Lemma terminal_below (e : bool) (p : string) (o : outcome) :
  below p o -> Forall (below p) (terminal e o).
Proof.
  intros Ho. destruct o as [[q v]|]; [|repeat constructor].
  destruct v; cbn; try (repeat constructor; exact Ho).
  destruct e; [|repeat constructor; exact Ho].
  destruct Ho as [t Ht]. cbn in Ht. subst q.
  apply (Forall_below_weaken p (p ++ t));
    [apply below_trans | apply indexed_from_below].
Qed.

Lemma collect_below (e : bool) (steps : list step) (p : string) (v : value) :
  Forall (below p) (flat_map (terminal e) (traverse e steps p v)).
Proof.
  pose proof (traverse_below e steps p v) as Hall.
  induction Hall as [|o os Ho _ IH]; cbn; [constructor|].
  apply Forall_app. split; [now apply terminal_below | exact IH].
Qed.

Lemma distribute_values (f : string -> value -> list outcome)
    (p p' : string) (items : list value) :
  Forall (fun x => forall q q', map out_value (f q x) = map out_value (f q' x))
         items ->
  forall i,
    map out_value (distribute f p i items)
    = map out_value (distribute f p' i items).
Proof.
  induction 1 as [|x more Hx _ IH]; intros i; [reflexivity|].
  rewrite !distribute_cons, !map_app. f_equal; [apply Hx | apply IH].
Qed.

(** The values a traversal reaches do not depend on the path it starts
    from. *)
Lemma traverse_values (e : bool) (steps : list step) : forall p p' v,
  map out_value (traverse e steps p v)
  = map out_value (traverse e steps p' v).
Proof.
  induction steps as [|st rest IH]; intros p p' v; [reflexivity|].
  destruct st as [k|i].
  - revert p p'.
    induction v as [| | | |items IHitems|entries _] using value_nested_ind;
      intros p p'; try reflexivity.
    + rewrite !traverse_key_list.
      destruct (negb (is_nil rest && negb e)); [|reflexivity].
      now apply distribute_values.
    + rewrite !traverse_key_dict.
      destruct (dict_get k entries); [apply IH | reflexivity].
  - destruct v; try reflexivity. cbn.
    destruct (nth_error items i); [apply IH | reflexivity].
Qed.

Lemma indexed_from_values (p p' : string) (items : list value) : forall i,
  map out_value (map Reached (indexed_from p i items))
  = map out_value (map Reached (indexed_from p' i items)).
Proof.
  induction items as [|x items IH]; intros i; cbn; [reflexivity|].
  f_equal. apply IH.
Qed.

Lemma terminal_values (e : bool) (o o' : outcome) :
  out_value o = out_value o' ->
  map out_value (terminal e o) = map out_value (terminal e o').
Proof.
  destruct o as [[p v]|], o' as [[p' v']|]; cbn; intros Heq;
    try discriminate; [|reflexivity].
  injection Heq as <-.
  destruct v; try reflexivity. destruct e; [|reflexivity].
  apply indexed_from_values.
Qed.

Lemma collect_values_indep (e : bool) (os os' : list outcome) :
  map out_value os = map out_value os' ->
  map out_value (flat_map (terminal e) os)
  = map out_value (flat_map (terminal e) os').
Proof.
  revert os'. induction os as [|o os IH]; intros [|o' os'] Heq;
    try discriminate; [reflexivity|].
  cbn in Heq. injection Heq as Ho Hos. cbn [flat_map].
  rewrite !map_app. f_equal; [now apply terminal_values | now apply IH].
Qed.

Section Elementwise.
Context {P : Type} `{ValuePredicate P}.
Implicit Types (pp : PathPredicate P) (os : list outcome).

Lemma accepted_values pp os :
  map pv_value (accepted pp os)
  = flat_map (fun ov => match ov with
                        | Some v => if filter_valid pp v then [v] else []
                        | None => []
                        end) (map out_value os).
Proof.
  unfold accepted. induction os as [|o os IH]; [reflexivity|].
  cbn [flat_map map]. rewrite map_app, IH. f_equal.
  destruct o as [pv|]; [|reflexivity]. cbn.
  now destruct (filter_valid pp (pv_value pv)).
Qed.

Lemma accepted_nil_indep pp os os' :
  map out_value os = map out_value os' ->
  is_nil (accepted pp os) = is_nil (accepted pp os').
Proof.
  intros Heq.
  assert (Hv : map pv_value (accepted pp os) = map pv_value (accepted pp os'))
    by (now rewrite !accepted_values, Heq).
  destruct (accepted pp os), (accepted pp os'); try reflexivity;
    discriminate Hv.
Qed.

Lemma accepted_below pp (p : string) os :
  Forall (below p) os ->
  Forall (fun pv => exists t, pv_path pv = p ++ t) (accepted pp os).
Proof.
  unfold accepted. induction 1 as [|o os Ho _ IH]; cbn; [constructor|].
  apply Forall_app. split; [|exact IH].
  destruct o as [pv|]; [|constructor].
  destruct (filter_valid pp (pv_value pv)); repeat constructor. exact Ho.
Qed.

(** The empty-path predicate of a plain constraint looks at each element. *)
Lemma plain_elementwise (p : P) :
  elementwise (mkPathPredicate "" (Some p))
              (fun q v => [Reached (mkPathValue q v)]).
Proof.
  repeat split.
  - intros objs. unfold candidates. cbn [path].
    change (parse_path "") with (@nil step, true).
    unfold collect_values. cbn [traverse flat_map terminal].
    rewrite app_nil_r. generalize 0.
    induction objs as [|x objs IH]; intros i; [reflexivity|].
    rewrite distribute_cons. cbn [indexed_from map]. rewrite <- IH.
    reflexivity.
  - intros q v. repeat constructor. exists EmptyString.
    cbn. now rewrite string_append_nil_r.
Qed.

(** So does a path predicate whose path starts with a key that is
    distributed over the list. *)
Lemma key_path_elementwise pp (k : string) (rest : list step) (e : bool) :
  parse_path (path pp) = (Key k :: rest, e) ->
  is_nil rest && negb e = false ->
  elementwise pp
    (fun q v => flat_map (terminal e) (traverse e (Key k :: rest) q v)).
Proof.
  intros Hparse Hdist. repeat split.
  - intros objs. unfold candidates. rewrite Hparse. unfold collect_values.
    rewrite traverse_key_list, Hdist. cbn [negb].
    apply distribute_flat_map.
  - intros q v. apply collect_below.
  - intros q q' v. apply collect_values_indep, traverse_values.
Qed.
Lemma is_nil_app {A} (l1 l2 : list A) :
  is_nil (l1 ++ l2) = is_nil l1 && is_nil l2.
Proof. now destruct l1. Qed.

(** An object satisfies an elementwise predicate exactly when the function
    accepts a value in it, from whatever path. *)
Lemma elementwise_satisfies pp F :
  elementwise pp F ->
  forall o q,
    satisfies (Produces (call pp)) o = negb (is_nil (accepted pp (F q o))).
Proof.
  intros (Hcand & _ & Hvalues) o q.
  unfold satisfies, constraint_ok. cbn [eval_constraint].
  rewrite call_closed_form. cbn [valid]. rewrite Hcand.
  rewrite distribute_cons. cbn [distribute]. rewrite app_nil_r.
  f_equal. apply accepted_nil_indep, Hvalues.
Qed.

(** On a list it is valid exactly when some object satisfies it. *)
Lemma elementwise_valid pp F :
  elementwise pp F ->
  forall objs,
    valid (eval_constraint (Produces (call pp)) objs)
    = existsb (satisfies (Produces (call pp))) objs.
Proof.
  intros Hel objs. pose proof Hel as (Hcand & _ & _).
  cbn [eval_constraint]. rewrite call_closed_form. cbn [valid].
  rewrite Hcand. generalize 0.
  induction objs as [|o objs IH]; intros i; [reflexivity|].
  rewrite distribute_cons, accepted_app, is_nil_app, negb_andb, IH.
  cbn [existsb]. f_equal. symmetry. now apply elementwise_satisfies.
Qed.

Lemma flat_map_constant {A B} (g : A -> list B) (b : B) (l : list A) (x : B) :
  Forall (fun a => g a = [b]) l ->
  (In x (flat_map g l) <-> x = b /\ is_nil l = false).
Proof.
  induction 1 as [|a l Ha _ IH]; cbn.
  - split; [intros [] | intros [_ Hf]; discriminate].
  - rewrite in_app_iff, Ha, IH. cbn. split.
    + intros [[<- | []] | [-> _]]; now split.
    + intros [-> _]. left. now left.
Qed.

Lemma elementwise_objects_from pp F :
  elementwise pp F ->
  forall l pre x,
    In x (flat_map (object_of (VList (pre ++ l)))
            (accepted pp (distribute F "" (length pre) l))) <->
    In x l /\ satisfies (Produces (call pp)) x = true.
Proof.
  intros Hel. pose proof Hel as (_ & Hbelow & _).
  induction l as [|o l IH]; intros pre x.
  - cbn. tauto.
  - rewrite distribute_cons, accepted_app, flat_map_app, in_app_iff.
    replace (pre ++ o :: l)%list with ((pre ++ [o]) ++ l)%list
      by (now rewrite <- app_assoc).
    replace (S (length pre)) with (length (pre ++ [o])%list)
      by (rewrite length_app; cbn; lia).
    rewrite IH.
    rewrite (flat_map_constant _ o).
    + rewrite (elementwise_satisfies pp F Hel x ("" ++ index_suffix (length pre))).
      cbn [In]. split.
      * intros [[-> Hne] | [Hin Hsat]]; [|tauto].
        split; [now left|]. now rewrite Hne.
      * intros [[<- | Hin] Hsat]; [left | right; tauto].
        split; [reflexivity|].
        now destruct (is_nil (accepted pp (F _ o))).
    + pose proof (accepted_below pp _ _ (Hbelow ("" ++ index_suffix (length pre)) o))
        as Hpaths.
      revert Hpaths. apply Forall_impl. intros pv Hpv.
      apply (object_of_element _ (length pre)); [|exact Hpv].
      rewrite <- app_assoc. cbn [app].
      now rewrite nth_error_app2, Nat.sub_diag by lia.
Qed.

(** The objects its path values lie in are the objects that satisfy it. *)
Lemma elementwise_objects pp F :
  elementwise pp F ->
  forall objs x,
    In x (validated_objects_of
            (eval_constraint (Produces (call pp)) objs)) <->
    In x objs /\ satisfies (Produces (call pp)) x = true.
Proof.
  intros Hel objs x. pose proof Hel as (Hcand & _).
  unfold validated_objects_of. cbn [eval_constraint].
  rewrite call_closed_form. cbn [ppr_source path_values]. rewrite Hcand.
  apply (elementwise_objects_from pp F Hel objs [] x).
Qed.

Lemma satisfies_plain (p : P) (o : value) :
  satisfies (Plain p) o = pred_call p o.
Proof.
  change (satisfies (Plain p) o)
    with (satisfies (Produces (call (mkPathPredicate "" (Some p)))) o).
  rewrite (elementwise_satisfies _ _ (plain_elementwise p) o "").
  unfold accepted, filter_valid. cbn.
  now destruct (pred_call p o).
Qed.

(** What a constraint that judges each object gives on an object list. *)
Lemma judged_constraint (c : @Constraint P) :
  judges_each_object c ->
  forall objs,
    valid (eval_constraint c objs) = existsb (satisfies c) objs /\
    (forall x, In x (validated_objects_of (eval_constraint c objs)) <->
               In x objs /\ satisfies c x = true).
Proof.
  intros [p | pp k rest e Hparse Hdist] objs.
  - split.
    + apply (elementwise_valid _ _ (plain_elementwise p)).
    + apply (elementwise_objects _ _ (plain_elementwise p)).
  - pose proof (key_path_elementwise pp k rest e Hparse Hdist) as Hel.
    split; [now apply (elementwise_valid _ _ Hel)
           | now apply (elementwise_objects _ _ Hel)].
Qed.
End Elementwise.

(** ** The verifier *)

Section VerifierLaws.
Context {P : Type} `{ValuePredicate P}.
Implicit Types (v : @ValueObservationVerifier P)
               (observation : Observation)
               (cs : list (@Constraint P)) (object_list : list value)
               (st : @LoopState P).

(** The loop, in closed form. *)
Lemma check_constraints_closed_form object_list cs : forall st,
  let st' := check_constraints cs object_list st in
  let rs := results_of object_list cs in
  ls_valid st' = ls_valid st && all_items_pass object_list cs /\
  evaluations (ls_log st')
    = (evaluations (ls_log st) ++ map (fun c => (c, object_list)) cs)%list /\
  info_comments (ls_log st') = info_comments (ls_log st) /\
  ob_observation (final_builder st') = ob_observation (final_builder st) /\
  ob_failed_constraints (final_builder st')
    = (ob_failed_constraints (final_builder st)
       ++ filter (fun c => negb (constraint_ok object_list c)) cs)%list /\
  ob_good_results (final_builder st')
    = (ob_good_results (final_builder st)
       ++ map ConstraintResult (filter valid rs))%list /\
  ob_bad_results (final_builder st')
    = (ob_bad_results (final_builder st)
       ++ map ConstraintResult (filter not_valid rs))%list /\
  validated_object_set (final_builder st')
    = fold_left set_add (validated_values rs)
                (validated_object_set (final_builder st)).
Proof.
  induction cs as [|c cs IH]; intros st; cbv zeta.
  - cbn. rewrite andb_true_r, !app_nil_r. repeat split; reflexivity.
  - unfold check_constraints, all_items_pass, results_of, validated_values.
    cbn [fold_left forallb map filter flat_map].
    fold (check_constraints cs object_list
            (check_constraint object_list st c)).
    specialize (IH (check_constraint object_list st c)). cbv zeta in IH.
    destruct IH as (Hv & He & Hi & Ho & Hf & Hg & Hb & Hs).
    rewrite Hv, He, Hi, Ho, Hf, Hg, Hb, Hs.
    unfold check_constraint, constraint_ok, not_valid,
      add_path_predicate_result, add_failed_constraint.
    destruct (valid (eval_constraint c object_list)) eqn:E;
      cbn -[eval_constraint]; rewrite ?E; cbn -[eval_constraint];
      unfold evaluations, info_comments; rewrite ?flat_map_app;
      cbn -[eval_constraint]; rewrite ?app_nil_r, ?fold_left_app,
        <- ?app_assoc; repeat split; try reflexivity.
    now rewrite andb_false_r.
Qed.

Lemma evaluations_app (l1 l2 : list (@Event P)) :
  evaluations (l1 ++ l2) = (evaluations l1 ++ evaluations l2)%list.
Proof. apply flat_map_app. Qed.

Lemma info_comments_app (l1 l2 : list (@Event P)) :
  info_comments (l1 ++ l2) = (info_comments l1 ++ info_comments l2)%list.
Proof. apply flat_map_app. Qed.

Lemma length_valid_split (rs : list (PathPredicateResult P)) :
  length (filter valid rs) + length (filter not_valid rs) = length rs.
Proof.
  induction rs as [|r rs IH]; [reflexivity|].
  unfold not_valid in *. cbn [filter].
  destruct (valid r); cbn [negb length]; lia.
Qed.

Lemma all_pass_results object_list cs :
  all_items_pass object_list cs = true ->
  filter valid (results_of object_list cs) = results_of object_list cs /\
  filter not_valid (results_of object_list cs) = [] /\
  filter (fun c => negb (constraint_ok object_list c)) cs = [].
Proof.
  unfold all_items_pass, results_of, not_valid.
  induction cs as [|c cs IH]; [now repeat split|].
  cbn [forallb map filter]. intros Hpass.
  apply andb_prop in Hpass as [Hc Hcs].
  destruct (IH Hcs) as (Hgood & Hbad & Hfailed).
  rewrite Hc. unfold constraint_ok in Hc. rewrite Hc. cbn [negb].
  rewrite Hgood, Hbad, Hfailed. now repeat split.
Qed.

Lemma verify_without_errors v observation :
  errors observation = [] ->
  let object_list := object_list_of observation in
  let cs := constraints v in
  let rs := results_of object_list cs in
  let pass := all_items_pass object_list cs in
  fst (verify v observation)
    = mkObservationVerifyResult
        (pass && (negb (strict v) || covered object_list cs))
        observation
        (map ConstraintResult (filter valid rs))
        (map ConstraintResult (filter not_valid rs))
        (filter (fun c => negb (constraint_ok object_list c)) cs)
        EmptyString /\
  evaluations (snd (verify v observation))
    = map (fun c => (c, object_list)) cs /\
  info_comments (snd (verify v observation))
    = if pass && strict v && negb (covered object_list cs)
      then [strict_comment (title v) (length (validated_by rs))
                           (length object_list)]
      else [].
Proof.
  intros Herr. cbv zeta. unfold verify. rewrite Herr. cbn [is_nil negb].
  set (log0 := if is_nil (objects observation)
               then [DebugVerifyingNone] else []).
  set (st0 := mkLoopState true (new_verify_builder observation) log0).
  assert (Hlog0 : evaluations log0 = [] /\ info_comments log0 = [])
    by (subst log0; destruct (is_nil (objects observation)); now split).
  destruct Hlog0 as [He0 Hi0].
  destruct (check_constraints_closed_form
              (object_list_of observation) (constraints v) st0)
    as (Hv & He & Hi & Ho & Hf & Hg & Hb & Hs).
  cbv zeta in *. cbn [st0 ls_valid ls_log final_builder new_verify_builder
    ob_observation ob_failed_constraints ob_good_results ob_bad_results
    validated_object_set andb app] in *.
  rewrite He0 in He. rewrite Hi0 in Hi. cbn [app] in He.
  unfold strict_check, covered, validated_by. rewrite Hv, Hs.
  unfold build_verify_result. rewrite Ho, Hf, Hg, Hb.
  destruct (all_items_pass (object_list_of observation) (constraints v));
    destruct (strict v); cbn [andb negb orb fst snd];
    try (repeat split; assumption).
  destruct (Nat.eqb _ _); cbn [fst snd negb];
    repeat split; try assumption.
  - rewrite evaluations_app, He. cbn. now rewrite app_nil_r.
  - rewrite info_comments_app, Hi. reflexivity.
Qed.

(** C2.  When the observation has errors, the result is invalid, its only
    bad result is the ObservationFailedError holding those errors, its good
    results and failed constraints are empty, and no constraint is
    evaluated. *)
Theorem observation_errors_short_circuit v observation :
  errors observation <> [] ->
  fst (verify v observation)
    = mkObservationVerifyResult false observation []
        [ObservationFailedError (errors observation)] []
        "Observation Failed." /\
  evaluations (snd (verify v observation)) = [].
Proof.
  intros Herr. unfold verify.
  destruct (errors observation); [now contradiction Herr | now split].
Qed.

(** C4.  Without observation errors, every constraint is evaluated, in
    declaration order, on the object list; every result is recorded, with
    the good results when valid and with the bad results otherwise; the
    failed constraints are the constraints whose result is invalid, in
    order; and the result is valid iff no constraint result is invalid
    and, for a strict verifier, the validated objects cover the object
    list. *)
Theorem all_constraints_evaluated v observation :
  errors observation = [] ->
  let object_list := object_list_of observation in
  let rs := results_of object_list (constraints v) in
  let result := fst (verify v observation) in
  evaluations (snd (verify v observation))
    = map (fun c => (c, object_list)) (constraints v) /\
  good_results result = map ConstraintResult (filter valid rs) /\
  bad_results result = map ConstraintResult (filter not_valid rs) /\
  length (good_results result) + length (bad_results result)
    = length (constraints v) /\
  failed_constraints result
    = filter (fun c => negb (constraint_ok object_list c)) (constraints v)
  /\
  ovr_valid result
    = forallb (constraint_ok object_list) (constraints v)
      && (negb (strict v) || covered object_list (constraints v)).
Proof.
  intros Herr. cbv zeta.
  destruct (verify_without_errors v observation Herr) as (Hr & He & _).
  cbv zeta in Hr. rewrite Hr. cbn [good_results bad_results
    failed_constraints ovr_valid]. repeat split; try assumption.
  rewrite !length_map, length_valid_split. apply length_map.
Qed.

(** C5.  For an observation with no objects and no errors, every
    constraint is evaluated, in order, on the one-element list [[None]],
    and the verification is decided by those evaluations: the good and bad
    results are the results of the constraints on [[None]], the failed
    constraints are those invalid on [[None]], and the verdict is that all
    are valid on [[None]] and, for a strict verifier, that the one object is
    validated. *)
Theorem empty_observation_checks_none v observation :
  objects observation = [] ->
  errors observation = [] ->
  evaluations (snd (verify v observation))
    = map (fun c => (c, [VNone])) (constraints v) /\
  good_results (fst (verify v observation))
    = map ConstraintResult
          (filter valid (results_of [VNone] (constraints v))) /\
  bad_results (fst (verify v observation))
    = map ConstraintResult
          (filter not_valid (results_of [VNone] (constraints v))) /\
  failed_constraints (fst (verify v observation))
    = filter (fun c => negb (valid (eval_constraint c [VNone])))
             (constraints v) /\
  ovr_valid (fst (verify v observation))
    = forallb (fun c => valid (eval_constraint c [VNone])) (constraints v)
      && (negb (strict v) || covered [VNone] (constraints v)).
Proof.
  intros Hobj Herr.
  destruct (verify_without_errors v observation Herr) as (Hr & He & _).
  cbv zeta in Hr, He. rewrite Hr, He.
  assert (Hol : object_list_of observation = [VNone])
    by (unfold object_list_of; now rewrite Hobj).
  rewrite Hol. repeat split; reflexivity.
Qed.

(** C3 (as amended).  When every constraint of a strict verifier passes and
    fewer objects were validated than the object list holds, the result is
    invalid and keeps every per-constraint result among its good results,
    with no bad result and no failed constraint.  The comment
    [Strict verifier "<title>" confirmed K of N objects.] is written to the
    log; the result, built from the validity alone, has the default
    comment. *)
Theorem strict_shortfall v observation :
  strict v = true ->
  errors observation = [] ->
  let object_list := object_list_of observation in
  let rs := results_of object_list (constraints v) in
  all_items_pass object_list (constraints v) = true ->
  length (validated_by rs) < length object_list ->
  let result := fst (verify v observation) in
  ovr_valid result = false /\
  good_results result = map ConstraintResult rs /\
  bad_results result = [] /\
  failed_constraints result = [] /\
  info_comments (snd (verify v observation))
    = [strict_comment (title v) (length (validated_by rs))
                      (length object_list)] /\
  comment result = EmptyString.
Proof.
  intros Hstrict Herr object_list rs Hpass Hlt. cbv zeta.
  destruct (verify_without_errors v observation Herr) as (Hr & _ & Hi).
  cbv zeta in Hr, Hi. fold object_list in Hr, Hi. fold rs in Hr, Hi.
  assert (Hcov : covered object_list (constraints v) = false).
  { unfold covered. fold rs. apply Nat.eqb_neq. lia. }
  rewrite Hpass, Hstrict, Hcov in Hr, Hi. cbn [andb negb orb] in Hr, Hi.
  rewrite Hr, Hi. cbn [ovr_valid good_results bad_results
    failed_constraints comment].
  destruct (all_pass_results object_list (constraints v) Hpass)
    as (Hgood & Hbad & Hfailed).
  fold rs in Hgood, Hbad. rewrite Hgood, Hbad, Hfailed.
  repeat split; reflexivity.
Qed.

(** *** One plain constraint *)

Lemma value_eqb_true (a b : value) : value_eqb a b = true -> a = b.
Proof. unfold value_eqb. now destruct (value_eq_dec a b). Qed.

Lemma set_add_fresh (s : list value) (x : value) :
  ~ In x s -> set_add s x = (s ++ [x])%list.
Proof.
  intros Hfresh. unfold set_add.
  destruct (existsb (value_eqb x) s) eqn:E; [|reflexivity].
  apply existsb_exists in E as [y [Hy Heq]].
  apply value_eqb_true in Heq. now subst y.
Qed.

(** Distinct objects each take their own place in the set. *)
Lemma fold_set_add_distinct (l : list value) : forall s,
  NoDup (s ++ l) -> fold_left set_add l s = (s ++ l)%list.
Proof.
  induction l as [|x l IH]; intros s Hnd; cbn [fold_left].
  - now rewrite app_nil_r.
  - rewrite set_add_fresh.
    + rewrite IH; rewrite <- app_assoc; [reflexivity | exact Hnd].
    + apply NoDup_remove_2 in Hnd. intros Hin. apply Hnd.
      apply in_or_app. now left.
Qed.

Lemma accepted_indexed (pp : PathPredicate P) (p : string)
    (objs : list value) : forall i,
  map pv_value (accepted pp (map Reached (indexed_from p i objs)))
  = filter (filter_valid pp) objs.
Proof.
  induction objs as [|x objs IH]; intros i; [reflexivity|].
  cbn [indexed_from map filter]. unfold accepted in *.
  cbn [flat_map pv_value]. rewrite map_app, IH.
  now destruct (filter_valid pp x).
Qed.

Lemma is_nil_map {A B} (f : A -> B) (l : list A) :
  is_nil (map f l) = is_nil l.
Proof. now destruct l. Qed.

(** What a plain constraint gives on an object list: the objects that
    satisfy it, and validity iff there is one. *)
Lemma plain_constraint_result (c : P) (objs : list value) :
  let r := eval_constraint (Plain c) objs in
  map pv_value (path_values r) = filter (pred_call c) objs /\
  valid r = negb (is_nil (filter (pred_call c) objs)).
Proof.
  cbv zeta. cbn [eval_constraint]. rewrite call_closed_form.
  cbn [path_values valid].
  change (candidates (mkPathPredicate "" (Some c)) (VList objs))
    with (map Reached (indexed_from "" 0 objs) ++ [])%list.
  rewrite app_nil_r.
  rewrite <- (is_nil_map pv_value (accepted _ _)), accepted_indexed.
  now split.
Qed.

End VerifierLaws.

(** ** The unit tests of path_predicate_test.py *)

Module PathPredicateTest.
Example test_collect_from_dict_identity :
  call (no_filter "") _LETTER_DICT
    = build_result
        (add_result_candidate
           (new_result_builder _LETTER_DICT (no_filter ""))
           (mkPathValue "" _LETTER_DICT)
           (ValueResult (mkPathValueResult None _LETTER_DICT ""
                           (mkPathValue "" _LETTER_DICT) true)))
        true /\
  values_of "/" _LETTER_DICT = [mkPathValue "" _LETTER_DICT] /\
  failures_of "/" _LETTER_DICT = [].
Proof. repeat split; reflexivity. Qed.

Example test_collect_from_list_identity :
  values_of "" letters
    = [mkPathValue "[0]" (VStr "A"); mkPathValue "[1]" (VStr "B");
       mkPathValue "[2]" (VStr "C")] /\
  values_of marker_string letters = [mkPathValue "" letters] /\
  values_of sep_string letters = values_of "" letters /\
  failures_of "" letters = [] /\ failures_of marker_string letters = [].
Proof. repeat split; reflexivity. Qed.

Example test_collect_from_dict_found :
  values_of "a" _LETTER_DICT = [mkPathValue "a" (VStr "A")] /\
  values_of "b" _LETTER_DICT = [mkPathValue "b" (VStr "B")] /\
  failures_of "b" _LETTER_DICT = [].
Proof. repeat split; reflexivity. Qed.

Example test_collect_from_dict_not_found :
  values_of "Z" _LETTER_DICT = [] /\
  failures_of "Z" _LETTER_DICT
    = [MissingPathError _LETTER_DICT "Z" (mkPathValue "" _LETTER_DICT)].
Proof. split; reflexivity. Qed.

Example test_collect_from_nested_dict_found :
  values_of "outer/inner/a"
            (VDict [("outer", VDict [("inner", _LETTER_DICT)])])
    = [mkPathValue "outer/inner/a" (VStr "A")].
Proof. reflexivity. Qed.

Example test_collect_from_nested_dict_not_found :
  values_of "a/b" _LETTER_DICT = [] /\
  failures_of "a/b" _LETTER_DICT
    = [MissingPathError (VStr "A") "b" (mkPathValue "a" (VStr "A"))].
Proof. split; reflexivity. Qed.

Example test_collect_from_list_found :
  values_of "a" (VList [_LETTER_DICT]) = [mkPathValue "[0]/a" (VStr "A")].
Proof. reflexivity. Qed.

Example test_collect_from_list_not_found :
  values_of "Z" (VList [_LETTER_DICT]) = [] /\
  failures_of "Z" (VList [_LETTER_DICT])
    = [MissingPathError _LETTER_DICT "Z" (mkPathValue "[0]" _LETTER_DICT)].
Proof. split; reflexivity. Qed.

Example test_collect_plain_terminal_list :
  values_of "a:" (VDict [("a", VList [_LETTER_DICT])])
    = [mkPathValue "a" (VList [_LETTER_DICT])] /\
  values_of "a/a" (VDict [("a", VList [_LETTER_DICT])])
    = [mkPathValue "a[0]/a" (VStr "A")].
Proof. split; reflexivity. Qed.

Example test_collect_enumerated_terminal_list :
  values_of "a/" (VDict [("a", letters)])
    = [mkPathValue "a[0]" (VStr "A"); mkPathValue "a[1]" (VStr "B");
       mkPathValue "a[2]" (VStr "C")] /\
  values_of "a" (VDict [("a", letters)])
    = values_of "a/" (VDict [("a", letters)]).
Proof. split; reflexivity. Qed.

Example test_collect_from_list_with_index :
  values_of "[0]" (VList [_LETTER_DICT; _NUMBER_DICT])
    = [mkPathValue "[0]" _LETTER_DICT] /\
  values_of "[1]/a" (VList [_LETTER_DICT; _NUMBER_DICT])
    = [mkPathValue "[1]/a" (VNum 1)].
Proof. split; reflexivity. Qed.

Example test_collect_from_list_of_list_with_index :
  values_of "[1]" nested_source
    = [mkPathValue "[1][0]" arabic; mkPathValue "[1][1]" roman] /\
  values_of "[1]:" nested_source
    = [mkPathValue "[1]" (VList [arabic; roman])] /\
  values_of "[1][0]:" nested_source = [mkPathValue "[1][0]" arabic] /\
  values_of "[1][0]" nested_source
    = [mkPathValue "[1][0][0]" (VNum 1); mkPathValue "[1][0][1]" (VNum 2);
       mkPathValue "[1][0][2]" (VNum 3)] /\
  values_of "[1][0][2]" nested_source
    = [mkPathValue "[1][0][2]" (VNum 3)].
Proof. repeat split; reflexivity. Qed.

Example test_collect_from_nested_list_found :
  values_of "outer/a" outer_source
    = [mkPathValue "outer[0]/a" (VStr "A");
       mkPathValue "outer[1]/a" (VNum 1)] /\
  values_of "outer/z" outer_source
    = [mkPathValue "outer[0]/z" (VStr "Z")] /\
  failures_of "outer/z" outer_source
    = [MissingPathError _NUMBER_DICT "z"
         (mkPathValue "outer[1]" _NUMBER_DICT)] /\
  values_of "outer/three" outer_source
    = [mkPathValue "outer[1]/three" (VNum 3)] /\
  failures_of "outer/three" outer_source
    = [MissingPathError _LETTER_DICT "three"
         (mkPathValue "outer[0]" _LETTER_DICT)].
Proof. repeat split; reflexivity. Qed.

Example test_collect_from_nested_list_not_found :
  values_of "outer/X" outer_source = [] /\
  failures_of "outer/X" outer_source
    = [MissingPathError _LETTER_DICT "X"
         (mkPathValue "outer[0]" _LETTER_DICT);
       MissingPathError _NUMBER_DICT "X"
         (mkPathValue "outer[1]" _NUMBER_DICT)].
Proof. split; reflexivity. Qed.

Example test_collect_filter_good :
  path_values (call filtered outer_source)
    = [mkPathValue "outer[1]/b" (VNum 2)] /\
  path_failures (call filtered outer_source)
    = [ValueResult
         (mkPathValueResult (Some filter_pred) outer_source "outer/b"
            (mkPathValue "outer[0]/b" (VStr "B")) false)].
Proof. split; reflexivity. Qed.
End PathPredicateTest.

(** ** Instances of the laws, and the inputs on which a law fails as worded *)

Lemma objects_distinct_2 (a b : value) : a <> b -> NoDup [a; b].
Proof.
  intros Hab. constructor; [intros [E|[]]; now apply Hab | ].
  constructor; [intros [] | constructor].
Qed.

(** On an observation without objects the conditional of the tests holds on
    [None], and the non-strict verifier is valid with no object at all. *)
Lemma non_strict_law_fails_on_empty_observation :
  ovr_valid (fst (verify (conditional_verifier false) (mkObservation [] [])))
    = true /\
  count_satisfying conditional [] = 0.
Proof. split; reflexivity. Qed.

(** Equal objects count once in the validated set. *)
Lemma strict_law_fails_on_equal_objects :
  count_satisfying (TestEquals (VNum 2)) [VNum 2; VNum 2] = 2 /\
  ovr_valid (fst (verify strict_equals_2
                    (mkObservation [VNum 2; VNum 2] []))) = false.
Proof. split; reflexivity. Qed.

Lemma observation_errors_short_circuit_witness :
  fst (verify (conditional_verifier true) failed_observation)
    = mkObservationVerifyResult false failed_observation []
        [ObservationFailedError ["HTTP 500"]] [] "Observation Failed." /\
  evaluations (snd (verify (conditional_verifier true) failed_observation))
    = [].
Proof.
  apply (observation_errors_short_circuit (conditional_verifier true)
           failed_observation).
  discriminate.
Defined.

(** The third case of [test_object_observation_verifier_with_conditional]:
    the constraint passes, one object of two is validated. *)
Lemma strict_shortfall_witness :
  ovr_valid (fst (verify (conditional_verifier true) shortfall_observation))
    = false /\
  good_results (fst (verify (conditional_verifier true)
                            shortfall_observation))
    = map ConstraintResult
        (results_of (object_list_of shortfall_observation)
                    (constraints (conditional_verifier true))) /\
  bad_results (fst (verify (conditional_verifier true)
                           shortfall_observation)) = [] /\
  failed_constraints (fst (verify (conditional_verifier true)
                                  shortfall_observation)) = [] /\
  info_comments (snd (verify (conditional_verifier true)
                             shortfall_observation))
    = [strict_comment (title (conditional_verifier true))
         (length (validated_by
                    (results_of (object_list_of shortfall_observation)
                                (constraints (conditional_verifier true)))))
         (length (object_list_of shortfall_observation))] /\
  comment (fst (verify (conditional_verifier true) shortfall_observation))
    = EmptyString.
Proof.
  refine (strict_shortfall (conditional_verifier true) shortfall_observation
            eq_refl eq_refl _ _).
  - vm_compute. reflexivity.
  - vm_compute. lia.
Defined.

(** C3 as worded fails there: the result carries no comment about the
    confirmed objects. *)
Lemma strict_shortfall_comment_not_in_result :
  strict (conditional_verifier true) = true /\
  all_items_pass (object_list_of shortfall_observation)
                 (constraints (conditional_verifier true)) = true /\
  length (validated_by (results_of (object_list_of shortfall_observation)
                          (constraints (conditional_verifier true)))) = 1 /\
  length (object_list_of shortfall_observation) = 2 /\
  ovr_valid (fst (verify (conditional_verifier true) shortfall_observation))
    = false /\
  index 0 "confirmed 1 of 2 objects"
        (comment (fst (verify (conditional_verifier true)
                              shortfall_observation))) = None.
Proof. repeat split; vm_compute; reflexivity. Qed.

Lemma all_constraints_evaluated_witness :
  let v := mkVerifier "Find one of two"
             [Plain (PathEq "a" (VStr "NOT_FOUND"));
              Plain (PathEq "b" (VStr "B"))] false in
  let observation := mkObservation [_LETTER_DICT; _NUMBER_DICT] [] in
  let rs := results_of [_LETTER_DICT; _NUMBER_DICT] (constraints v) in
  let result := fst (verify v observation) in
  evaluations (snd (verify v observation))
    = map (fun c => (c, [_LETTER_DICT; _NUMBER_DICT])) (constraints v) /\
  good_results result = map ConstraintResult (filter valid rs) /\
  bad_results result = map ConstraintResult (filter not_valid rs) /\
  length (good_results result) + length (bad_results result) = 2 /\
  failed_constraints result
    = filter (fun c => negb (constraint_ok [_LETTER_DICT; _NUMBER_DICT] c))
             (constraints v) /\
  ovr_valid result
    = forallb (constraint_ok [_LETTER_DICT; _NUMBER_DICT]) (constraints v)
      && (negb (strict v)
          || covered [_LETTER_DICT; _NUMBER_DICT] (constraints v)).
Proof.
  apply (all_constraints_evaluated
           (mkVerifier "Find one of two"
              [Plain (PathEq "a" (VStr "NOT_FOUND"));
               Plain (PathEq "b" (VStr "B"))] false)
           (mkObservation [_LETTER_DICT; _NUMBER_DICT] [])).
  reflexivity.
Defined.

(** The conditional of the tests is valid on [None]: checked on [[None]],
    it makes an observation without objects valid. *)
Lemma empty_observation_checks_none_witness :
  evaluations (snd (verify (conditional_verifier false) (mkObservation [] [])))
    = [(Plain conditional, [VNone])] /\
  failed_constraints (fst (verify (conditional_verifier false)
                                  (mkObservation [] []))) = [] /\
  ovr_valid (fst (verify (conditional_verifier false) (mkObservation [] [])))
    = true.
Proof.
  destruct (empty_observation_checks_none (conditional_verifier false)
              (mkObservation [] []) eq_refl eq_refl)
    as (He & _ & _ & Hf & Hv).
  refine (conj He (conj _ _)).
  - rewrite Hf. vm_compute. reflexivity.
  - rewrite Hv. vm_compute. reflexivity.
Defined.

(** The empty path on a dict root, [test_collect_from_dict_identity]. *)
Lemma empty_path_resolves_root_witness :
  path_values (call (no_filter "") _LETTER_DICT)
    = [mkPathValue "" _LETTER_DICT] /\
  path_failures (call (no_filter "") _LETTER_DICT) = [].
Proof.
  refine (proj1 (empty_path_resolves_root (no_filter "") _LETTER_DICT
                   eq_refl _) (or_introl eq_refl)).
  discriminate.
Defined.

(** C6 as worded fails on a list root: the empty path gives one path value
    per element, not the root ([test_collect_from_list_identity]). *)
Lemma empty_path_enumerates_list_root :
  path_values (call (no_filter "") letters)
    = [mkPathValue "[0]" (VStr "A"); mkPathValue "[1]" (VStr "B");
       mkPathValue "[2]" (VStr "C")] /\
  path_values (call (no_filter "") letters) <> [mkPathValue "" letters].
Proof. split; [reflexivity | discriminate]. Qed.

(** The enumeration law on [test_collect_enumerated_terminal_list]. *)
Lemma enumeration_law_witness :
  path_values (call (no_filter "a") (VDict [("a", letters)]))
    = [mkPathValue "a[0]" (VStr "A"); mkPathValue "a[1]" (VStr "B");
       mkPathValue "a[2]" (VStr "C")] /\
  path_failures (call (no_filter "a") (VDict [("a", letters)])) = [] /\
  path_values (call (no_filter ("a" ++ marker_string))
                    (VDict [("a", letters)]))
    = [mkPathValue "a" letters] /\
  path_failures (call (no_filter ("a" ++ marker_string))
                      (VDict [("a", letters)])) = [].
Proof.
  destruct (enumeration_law (P := TestPredicate) "a" (VDict [("a", letters)])
              "a" [VStr "A"; VStr "B"; VStr "C"] eq_refl eq_refl)
    as (_ & Hvalues & _ & _ & Hfail & Hmarked & Hmfail).
  exact (conj Hvalues (conj Hfail (conj Hmarked Hmfail))).
Defined.

(** C7 as worded fails when the final key is applied through a list: the
    final step of path [a] on a list of one object resolves to the list
    under [a] and its elements are enumerated, yet with the marker the key is
    not distributed and nothing is resolved. *)
Lemma marked_final_key_is_not_distributed :
  snd (strip_marker "a") = true /\
  frontier "a" list_of_list_holder
    = [Reached (mkPathValue "[0]/a" (VList [VNum 1; VNum 2]))] /\
  path_values (call (no_filter "a") list_of_list_holder)
    = [mkPathValue "[0]/a[0]" (VNum 1); mkPathValue "[0]/a[1]" (VNum 2)] /\
  path_values (call (no_filter ("a" ++ marker_string)) list_of_list_holder)
    = [] /\
  path_failures (call (no_filter ("a" ++ marker_string)) list_of_list_holder)
    = [MissingPathError list_of_list_holder "a"
         (mkPathValue "" list_of_list_holder)].
Proof. repeat split; reflexivity. Qed.

(** The ambiguity law on [test_collect_from_nested_list_found], path
    [outer/z]. *)
Lemma ambiguity_law_witness :
  path_values (call (no_filter "outer/z") outer_source)
    = key_hits "outer" "z" 0 [_LETTER_DICT; _NUMBER_DICT] /\
  path_failures (call (no_filter "outer/z") outer_source)
    = key_misses "outer" "z" 0 [_LETTER_DICT; _NUMBER_DICT].
Proof.
  refine (proj2 (proj2 (proj2
            (ambiguity_law (no_filter "outer/z") outer_source [Key "outer"]
               "z" "outer" [_LETTER_DICT; _NUMBER_DICT] eq_refl eq_refl _)))
            eq_refl).
  apply Forall_cons; [|apply Forall_cons; [|apply Forall_nil]].
  - split; [reflexivity|].
    intros y Hy. vm_compute in Hy. injection Hy as <-. reflexivity.
  - split; [reflexivity|].
    intros y Hy. vm_compute in Hy. discriminate Hy.
Defined.

(** C8 as worded fails when an element holds a list under the key: the path
    goes through the one-element list [outer], its last step is the key [a],
    and the result has two path values and no failure. *)
Lemma ambiguity_count_fails_on_list_value :
  parse_path "outer/a" = ([Key "outer"; Key "a"], true) /\
  traverse true [Key "outer"] "" list_under_key
    = [Reached (mkPathValue "outer"
                  (VList [VDict [("a", VList [VNum 1; VNum 2])]]))] /\
  path_values (call (no_filter "outer/a") list_under_key)
    = [mkPathValue "outer[0]/a[0]" (VNum 1);
       mkPathValue "outer[0]/a[1]" (VNum 2)] /\
  path_failures (call (no_filter "outer/a") list_under_key) = [] /\
  length (path_values (call (no_filter "outer/a") list_under_key))
    + length (path_failures (call (no_filter "outer/a") list_under_key))
    <> length [VDict [("a", VList [VNum 1; VNum 2])]].
Proof. repeat split; try reflexivity. vm_compute. lia. Qed.

(** The filter law on [test_collect_filter_good]. *)
Lemma filter_keeps_accepted_candidates_witness :
  path_values (call filtered outer_source)
    = filter (fun pv => filter_valid filtered (pv_value pv))
             (resolved filtered outer_source) /\
  ~ In (mkPathValue "outer[0]/b" (VStr "B"))
       (path_values (call filtered outer_source)) /\
  length (path_values (call filtered outer_source))
    + length (path_failures (call filtered outer_source))
    = length (candidates filtered outer_source).
Proof.
  destruct (filter_keeps_accepted_candidates filtered outer_source)
    as (Hvalues & Habsent & Hcount).
  refine (conj Hvalues (conj (Habsent _ _ _) Hcount)).
  - left. reflexivity.
  - reflexivity.
Defined.

(** C9 as worded fails on [test_collect_filter_good]: the candidate
    [outer[0]/b] resolves, the filter rejects it, and it is not among the
    path values, which hold one entry for two resolved candidates. *)
Lemma rejected_candidate_leaves_path_values :
  In (mkPathValue "outer[0]/b" (VStr "B")) (resolved filtered outer_source) /\
  filter_valid filtered (VStr "B") = false /\
  ~ In (mkPathValue "outer[0]/b" (VStr "B"))
       (path_values (call filtered outer_source)) /\
  length (resolved filtered outer_source) = 2 /\
  length (path_values (call filtered outer_source)) = 1.
Proof.
  repeat split; try reflexivity.
  - left. reflexivity.
  - vm_compute. intros [E|[]]. discriminate E.
Qed.

Lemma filter_rejection_is_a_failure_witness :
  In (ValueResult
        (mkPathValueResult (Some filter_pred) outer_source "outer/b"
           (mkPathValue "outer[0]/b" (VStr "B")) false))
     (path_failures (call filtered outer_source)) /\
  is_missing
    (ValueResult
       (mkPathValueResult (Some filter_pred) outer_source "outer/b"
          (mkPathValue "outer[0]/b" (VStr "B")) false)) = false.
Proof.
  refine (filter_rejection_is_a_failure filtered outer_source filter_pred
            (mkPathValue "outer[0]/b" (VStr "B")) eq_refl _ eq_refl).
  left. reflexivity.
Defined.

(** ** Further properties of the verifier *)

Section VerifierFacts.
Context {P : Type} `{ValuePredicate P}.
Implicit Types (v : @ValueObservationVerifier P)
               (observation : Observation)
               (cs : list (@Constraint P)) (object_list : list value).

Lemma verify_with_errors v observation :
  errors observation <> [] ->
  verify v observation
  = (mkObservationVerifyResult false observation []
       [ObservationFailedError (errors observation)] []
       "Observation Failed.",
     [DebugObservationErrors (errors observation)]).
Proof.
  intros Herr. unfold verify.
  destruct (errors observation); [now contradiction Herr | reflexivity].
Qed.

Lemma errors_dec observation :
  {errors observation = []} + {errors observation <> []}.
Proof. destruct (errors observation); [now left | now right]. Qed.

Lemma object_list_not_empty observation : object_list_of observation <> [].
Proof.
  unfold object_list_of. destruct (objects observation); discriminate.
Qed.

Lemma no_failed_iff_all_pass object_list cs :
  filter (fun c => negb (constraint_ok object_list c)) cs = [] <->
  all_items_pass object_list cs = true.
Proof.
  unfold all_items_pass. induction cs as [|c cs IH]; [now split|].
  cbn [filter forallb].
  destruct (constraint_ok object_list c); cbn [negb andb];
    [exact IH | split; discriminate].
Qed.

(** X1.  The result of a verification always holds the observation it was
    given, with or without errors. *)
Theorem observation_is_kept v observation :
  ovr_observation (fst (verify v observation)) = observation.
Proof.
  destruct (errors_dec observation) as [Herr | Herr].
  - destruct (verify_without_errors v observation Herr) as (Hr & _).
    cbv zeta in Hr. now rewrite Hr.
  - now rewrite verify_with_errors.
Qed.

(** X2.  A valid result is clean: the observation had no errors, no
    constraint failed, no result is bad, every constraint has its good
    result, and no shortfall comment was logged. *)
Theorem valid_result_is_clean v observation :
  ovr_valid (fst (verify v observation)) = true ->
  errors observation = [] /\
  failed_constraints (fst (verify v observation)) = [] /\
  bad_results (fst (verify v observation)) = [] /\
  length (good_results (fst (verify v observation)))
    = length (constraints v) /\
  info_comments (snd (verify v observation)) = [].
Proof.
  destruct (errors_dec observation) as [Herr | Herr];
    [|rewrite verify_with_errors by exact Herr; discriminate].
  destruct (verify_without_errors v observation Herr) as (Hr & _ & Hi).
  cbv zeta in Hr, Hi. rewrite Hr, Hi.
  cbn [ovr_valid failed_constraints bad_results good_results].
  intros Hvalid. apply andb_prop in Hvalid as [Hpass Hcov].
  destruct (all_pass_results _ _ Hpass) as (Hgood & Hbad & Hfailed).
  rewrite Hgood, Hbad, Hfailed, Hpass.
  repeat split; try reflexivity; try assumption.
  - unfold results_of. now rewrite !length_map.
  - destruct (strict v); [|reflexivity].
    cbn [negb orb andb] in *. now rewrite Hcov.
Qed.

(** X3.  Without observation errors, a non-strict verifier finds the
    observation valid exactly when no constraint failed. *)
Theorem non_strict_valid_iff_nothing_failed v observation :
  errors observation = [] ->
  strict v = false ->
  (ovr_valid (fst (verify v observation)) = true <->
   failed_constraints (fst (verify v observation)) = []).
Proof.
  intros Herr Hstrict.
  destruct (verify_without_errors v observation Herr) as (Hr & _).
  cbv zeta in Hr. rewrite Hr, Hstrict.
  cbn [ovr_valid failed_constraints negb orb]. rewrite andb_true_r.
  symmetry. apply no_failed_iff_all_pass.
Qed.

(** X4.  Strictness only restricts.  A strict and a non-strict verifier
    with the same constraints, whatever their titles, evaluate the same
    constraints and return the same observation, results, failed constraints
    and comment; whenever the strict one is valid, so is the other. *)
Theorem strictness_only_restricts (t1 t2 : string) cs observation :
  let strict_run := verify (mkVerifier t1 cs true) observation in
  let loose_run := verify (mkVerifier t2 cs false) observation in
  evaluations (snd strict_run) = evaluations (snd loose_run) /\
  ovr_observation (fst strict_run) = ovr_observation (fst loose_run) /\
  good_results (fst strict_run) = good_results (fst loose_run) /\
  bad_results (fst strict_run) = bad_results (fst loose_run) /\
  failed_constraints (fst strict_run) = failed_constraints (fst loose_run) /\
  comment (fst strict_run) = comment (fst loose_run) /\
  (ovr_valid (fst strict_run) = true -> ovr_valid (fst loose_run) = true).
Proof.
  cbv zeta. destruct (errors_dec observation) as [Herr | Herr].
  - destruct (verify_without_errors (mkVerifier t1 cs true) observation Herr)
      as (Hr1 & He1 & _).
    destruct (verify_without_errors (mkVerifier t2 cs false) observation Herr)
      as (Hr2 & He2 & _).
    cbv zeta in *. rewrite Hr1, Hr2, He1, He2. cbn.
    repeat split; try reflexivity.
    intros Hv. apply andb_prop in Hv as [Hpass _].
    now rewrite andb_true_r.
  - rewrite !verify_with_errors by exact Herr. cbn.
    repeat split; try reflexivity. discriminate.
Qed.

(** X5.  A verifier without constraints: on an observation without errors
    the non-strict one is always valid and the strict one never is, since
    the object list is never empty and nothing validates its objects. *)
Theorem verifier_without_constraints (t : string) observation :
  errors observation = [] ->
  ovr_valid (fst (verify (P := P) (mkVerifier t [] false) observation))
    = true /\
  ovr_valid (fst (verify (P := P) (mkVerifier t [] true) observation))
    = false.
Proof.
  intros Herr.
  destruct (verify_without_errors (mkVerifier t [] false) observation Herr)
    as (Hr1 & _).
  destruct (verify_without_errors (mkVerifier t [] true) observation Herr)
    as (Hr2 & _).
  cbv zeta in *. rewrite Hr1, Hr2. cbn. split; [reflexivity|].
  unfold covered. cbn.
  pose proof (object_list_not_empty observation) as Hne.
  now destruct (object_list_of observation).
Qed.

(** X6.  No constraint is ever called on an empty object list. *)
Theorem constraints_never_see_an_empty_list v observation :
  Forall (fun e => snd e <> []) (evaluations (snd (verify v observation))).
Proof.
  destruct (errors_dec observation) as [Herr | Herr].
  - destruct (verify_without_errors v observation Herr) as (_ & He & _).
    cbv zeta in He. rewrite He. apply Forall_forall.
    intros e He'. apply in_map_iff in He' as [c [<- _]].
    apply object_list_not_empty.
  - rewrite verify_with_errors by exact Herr. constructor.
Qed.

(** X7.  The shortfall comment is logged at most once, and only by a strict
    verifier whose constraints all passed on an observation without errors
    and whose result is invalid. *)
Theorem shortfall_comment_only_when_strict v observation :
  length (info_comments (snd (verify v observation))) <= 1 /\
  (info_comments (snd (verify v observation)) <> [] ->
   strict v = true /\ errors observation = [] /\
   failed_constraints (fst (verify v observation)) = [] /\
   ovr_valid (fst (verify v observation)) = false).
Proof.
  destruct (errors_dec observation) as [Herr | Herr].
  - destruct (verify_without_errors v observation Herr) as (Hr & _ & Hi).
    cbv zeta in Hr, Hi. rewrite Hr, Hi. cbn [ovr_valid failed_constraints].
    destruct (all_items_pass (object_list_of observation) (constraints v))
      eqn:Hpass; cbn [andb]; [|split; [cbn; lia | now intros []]].
    destruct (strict v); cbn [andb negb orb];
      [|split; [cbn; lia | now intros []]].
    destruct (covered (object_list_of observation) (constraints v));
      cbn [negb]; [split; [cbn; lia | now intros []]|].
    split; [cbn; lia|]. intros _.
    repeat split; try reflexivity; try assumption.
    now apply no_failed_iff_all_pass.
  - rewrite verify_with_errors by exact Herr. cbn.
    split; [lia | now intros []].
Qed.
End VerifierFacts.

(** ** Several constraints *)

Section SeveralConstraints.
Context {P : Type} `{ValuePredicate P}.
Implicit Types (cs : list (@Constraint P)) (object_list objs : list value)
               (observation : Observation) (ps : list P).

Lemma value_eqb_refl (x : value) : value_eqb x x = true.
Proof. unfold value_eqb. now destruct (value_eq_dec x x). Qed.

Lemma existsb_value_eqb (x : value) (s : list value) :
  existsb (value_eqb x) s = true <-> In x s.
Proof.
  rewrite existsb_exists. split.
  - intros [y [Hy Heq]]. apply value_eqb_true in Heq. now subst.
  - intros Hin. exists x. split; [exact Hin | apply value_eqb_refl].
Qed.

Lemma fold_set_add_In (l : list value) : forall s x,
  In x (fold_left set_add l s) <-> In x s \/ In x l.
Proof.
  induction l as [|y l IH]; intros s x; cbn [fold_left].
  - cbn. tauto.
  - rewrite IH. unfold set_add.
    destruct (existsb (value_eqb y) s) eqn:E.
    + apply existsb_value_eqb in E. cbn. split; [tauto|].
      intros [Hs | [-> | Hl]]; tauto.
    + rewrite in_app_iff. cbn. tauto.
Qed.

Lemma fold_set_add_NoDup (l : list value) : forall s,
  NoDup s -> NoDup (fold_left set_add l s).
Proof.
  induction l as [|y l IH]; intros s Hs; cbn [fold_left]; [exact Hs|].
  apply IH. unfold set_add.
  destruct (existsb (value_eqb y) s) eqn:E; [exact Hs|].
  apply NoDup_app; [exact Hs | repeat constructor; intros [] |].
  intros x Hx [<- | []].
  apply existsb_value_eqb in Hx. congruence.
Qed.

(** The size of the set does not depend on the order of insertion. *)
Lemma fold_set_add_length_perm (l l' : list value) :
  Permutation l l' ->
  length (fold_left set_add l []) = length (fold_left set_add l' []).
Proof.
  intros Hperm. apply Permutation_length, NoDup_Permutation.
  - apply fold_set_add_NoDup. constructor.
  - apply fold_set_add_NoDup. constructor.
  - intros x. rewrite !fold_set_add_In.
    split; intros [[] | Hin]; right;
      [apply (Permutation_in x Hperm Hin)
      | apply (Permutation_in x (Permutation_sym Hperm) Hin)].
Qed.

Lemma filter_perm {A} (f : A -> bool) (l l' : list A) :
  Permutation l l' -> Permutation (filter f l) (filter f l').
Proof.
  induction 1 as [| x l l' _ IH | x y l | l l' l'' _ IH1 _ IH2];
    cbn [filter].
  - constructor.
  - destruct (f x); [now constructor | exact IH].
  - destruct (f x), (f y); try apply Permutation_refl. apply perm_swap.
  - now transitivity (filter f l').
Qed.

Lemma forallb_perm {A} (f : A -> bool) (l l' : list A) :
  Permutation l l' -> forallb f l = forallb f l'.
Proof.
  induction 1 as [| x l l' _ IH | x y l | l l' l'' _ IH1 _ IH2];
    cbn [forallb].
  - reflexivity.
  - now rewrite IH.
  - now destruct (f x), (f y).
  - now rewrite IH1.
Qed.

(** X8.  The order of the constraints does not matter to the verdict: two
    verifiers whose constraint lists are permutations of each other agree on
    validity, strict or not, and their failed constraints, good results and
    bad results are permutations of each other. *)
Theorem constraint_order_is_irrelevant (t : string) (is_strict : bool)
    cs cs' observation :
  Permutation cs cs' ->
  let r := fst (verify (mkVerifier t cs is_strict) observation) in
  let r' := fst (verify (mkVerifier t cs' is_strict) observation) in
  ovr_valid r = ovr_valid r' /\
  Permutation (failed_constraints r) (failed_constraints r') /\
  Permutation (good_results r) (good_results r') /\
  Permutation (bad_results r) (bad_results r').
Proof.
  intros Hperm. cbv zeta.
  destruct (errors_dec observation) as [Herr | Herr];
    [|rewrite !verify_with_errors by exact Herr; cbn; now repeat split].
  destruct (verify_without_errors (mkVerifier t cs is_strict)
              observation Herr) as (Hr & _).
  destruct (verify_without_errors (mkVerifier t cs' is_strict)
              observation Herr) as (Hr' & _).
  cbv zeta in Hr, Hr'. rewrite Hr, Hr'.
  cbn [ovr_valid failed_constraints good_results bad_results constraints
       strict].
  set (ol := object_list_of observation).
  assert (Hrs : Permutation (results_of ol cs) (results_of ol cs'))
    by (now apply Permutation_map).
  repeat split.
  - unfold all_items_pass. rewrite (forallb_perm _ _ _ Hperm).
    f_equal. f_equal. unfold covered, validated_by. f_equal.
    apply fold_set_add_length_perm. unfold validated_values.
    now apply Permutation_flat_map.
  - now apply filter_perm.
  - now apply Permutation_map, filter_perm.
  - now apply Permutation_map, filter_perm.
Qed.

(** X9.  Constraint lists compose.  Without observation errors, verifying
    with [cs1 ++ cs2] evaluates [cs1] then [cs2], and its good results, bad
    results and failed constraints are those of [cs1] followed by those of
    [cs2]; for non-strict verifiers the verdict is the conjunction of the
    two verdicts. *)
Theorem constraint_lists_compose (t : string) (is_strict : bool)
    cs1 cs2 observation :
  errors observation = [] ->
  let run l s := verify (mkVerifier t l s) observation in
  evaluations (snd (run (cs1 ++ cs2)%list is_strict))
    = (evaluations (snd (run cs1 is_strict))
       ++ evaluations (snd (run cs2 is_strict)))%list /\
  good_results (fst (run (cs1 ++ cs2)%list is_strict))
    = (good_results (fst (run cs1 is_strict))
       ++ good_results (fst (run cs2 is_strict)))%list /\
  bad_results (fst (run (cs1 ++ cs2)%list is_strict))
    = (bad_results (fst (run cs1 is_strict))
       ++ bad_results (fst (run cs2 is_strict)))%list /\
  failed_constraints (fst (run (cs1 ++ cs2)%list is_strict))
    = (failed_constraints (fst (run cs1 is_strict))
       ++ failed_constraints (fst (run cs2 is_strict)))%list /\
  ovr_valid (fst (run (cs1 ++ cs2)%list false))
    = ovr_valid (fst (run cs1 false)) && ovr_valid (fst (run cs2 false)).
Proof.
  intros Herr. cbv zeta.
  pose proof (fun l s => verify_without_errors (mkVerifier t l s)
                           observation Herr) as Hclosed.
  cbv zeta in Hclosed. cbn [constraints strict] in Hclosed.
  destruct (Hclosed (cs1 ++ cs2)%list is_strict) as (Hr & He & _).
  destruct (Hclosed cs1 is_strict) as (Hr1 & He1 & _).
  destruct (Hclosed cs2 is_strict) as (Hr2 & He2 & _).
  destruct (Hclosed (cs1 ++ cs2)%list false) as (Hn & _).
  destruct (Hclosed cs1 false) as (Hn1 & _).
  destruct (Hclosed cs2 false) as (Hn2 & _).
  rewrite Hr, Hr1, Hr2, He, He1, He2, Hn, Hn1, Hn2.
  cbn [good_results bad_results failed_constraints ovr_valid negb orb].
  unfold results_of, all_items_pass.
  rewrite !map_app, !filter_app, !map_app, forallb_app, !andb_true_r.
  repeat split; reflexivity.
Qed.

Lemma plain_ok_iff (p : P) objs :
  constraint_ok objs (Plain p) = true <->
  exists o, In o objs /\ pred_call p o = true.
Proof.
  unfold constraint_ok.
  destruct (plain_constraint_result p objs) as [_ Hvalid].
  cbv zeta in Hvalid. rewrite Hvalid.
  destruct (filter (pred_call p) objs) as [|o rest] eqn:E; cbn.
  - split; [discriminate|]. intros [o [Hin Ho]].
    assert (Hf : In o (filter (pred_call p) objs))
      by (apply filter_In; now split).
    rewrite E in Hf. contradiction.
  - split; [|reflexivity]. intros _. exists o.
    apply filter_In. rewrite E. now left.
Qed.

Lemma all_plain_pass_iff ps objs :
  all_items_pass objs (map Plain ps) = true <->
  forall p, In p ps -> exists o, In o objs /\ pred_call p o = true.
Proof.
  unfold all_items_pass. rewrite forallb_forall. split.
  - intros Hall p Hp. apply plain_ok_iff, Hall, in_map, Hp.
  - intros Hall c Hc. apply in_map_iff in Hc as [p [<- Hp]].
    apply plain_ok_iff, Hall, Hp.
Qed.

Lemma plain_is_empty_path (p : P) objs :
  eval_constraint (Plain p) objs
  = eval_constraint (Produces (call (mkPathPredicate "" (Some p)))) objs.
Proof. reflexivity. Qed.

Lemma validated_values_plain ps objs :
  all_items_pass objs (map Plain ps) = true ->
  forall x,
    In x (validated_values (results_of objs (map Plain ps))) <->
    exists p, In p ps /\ In x objs /\ pred_call p x = true.
Proof.
  unfold all_items_pass, validated_values, results_of.
  induction ps as [|p ps IH]; cbn [map forallb flat_map]; intros Hpass x.
  - split; [intros [] | intros [p [[] _]]].
  - apply andb_prop in Hpass as [Hp Hps].
    unfold constraint_ok in Hp. rewrite Hp, in_app_iff, (IH Hps).
    rewrite plain_is_empty_path.
    rewrite (elementwise_objects _ _ (plain_elementwise p) objs x).
    change (satisfies (Produces (call (mkPathPredicate "" (Some p)))) x)
      with (satisfies (Plain p) x).
    rewrite satisfies_plain. split.
    + intros [[Hin Hsat] | [q [Hq Hrest]]];
        [exists p; cbn; tauto | exists q; cbn; tauto].
    + intros [q [[<- | Hq] Hrest]]; [left; tauto | right; now exists q].
Qed.

(** X10.  A non-strict verifier with plain constraints, on an observation
    of at least one object and without errors, is valid exactly when every
    constraint is satisfied by some object, not necessarily the same one. *)
Theorem non_strict_wants_an_object_per_constraint (t : string) ps objs :
  objs <> [] ->
  (ovr_valid (fst (verify (mkVerifier t (map Plain ps) false)
                          (mkObservation objs []))) = true <->
   forall p, In p ps -> exists o, In o objs /\ pred_call p o = true).
Proof.
  intros Hne.
  destruct (verify_without_errors (mkVerifier t (map Plain ps) false)
              (mkObservation objs []) eq_refl) as (Hr & _).
  cbv zeta in Hr. rewrite Hr. cbn [ovr_valid constraints strict negb orb].
  rewrite andb_true_r.
  replace (object_list_of (mkObservation objs [])) with objs
    by (unfold object_list_of; now destruct objs).
  apply all_plain_pass_iff.
Qed.

(** X11.  A strict verifier with plain constraints, on an observation of
    at least one object, all distinct, and without errors, is valid exactly
    when every constraint is satisfied by some object and every object
    satisfies some constraint. *)
Theorem strict_wants_a_constraint_per_object (t : string) ps objs :
  objs <> [] ->
  NoDup objs ->
  (ovr_valid (fst (verify (mkVerifier t (map Plain ps) true)
                          (mkObservation objs []))) = true <->
   (forall p, In p ps -> exists o, In o objs /\ pred_call p o = true) /\
   (forall o, In o objs -> exists p, In p ps /\ pred_call p o = true)).
Proof.
  intros Hne Hnd.
  destruct (verify_without_errors (mkVerifier t (map Plain ps) true)
              (mkObservation objs []) eq_refl) as (Hr & _).
  cbv zeta in Hr. rewrite Hr. cbn [ovr_valid constraints strict negb orb].
  replace (object_list_of (mkObservation objs [])) with objs
    by (unfold object_list_of; now destruct objs).
  rewrite andb_true_iff, all_plain_pass_iff.
  split; intros [Hpass Hcov]; (split; [exact Hpass|]).
  - apply all_plain_pass_iff in Hpass.
    unfold covered, validated_by in Hcov.
    apply Nat.eqb_eq in Hcov.
    set (S := fold_left set_add
                (validated_values (results_of objs (map Plain ps))) []) in *.
    assert (HS : NoDup S) by (apply fold_set_add_NoDup; constructor).
    assert (Hin : incl S objs).
    { intros x Hx. apply fold_set_add_In in Hx as [[] | Hx].
      apply (validated_values_plain ps objs Hpass) in Hx.
      destruct Hx as [p Hx]. tauto. }
    assert (Hback : incl objs S)
      by (apply (NoDup_length_incl HS); [lia | exact Hin]).
    intros o Ho. apply Hback in Ho.
    apply fold_set_add_In in Ho as [[] | Ho].
    apply (validated_values_plain ps objs Hpass) in Ho.
    destruct Ho as [p Ho]. exists p. tauto.
  - pose proof Hpass as Hpass'. apply all_plain_pass_iff in Hpass'.
    unfold covered, validated_by.
    apply Nat.eqb_eq.
    set (S := fold_left set_add
                (validated_values (results_of objs (map Plain ps))) []).
    assert (HS : NoDup S) by (apply fold_set_add_NoDup; constructor).
    assert (Hin : incl S objs).
    { intros x Hx. apply fold_set_add_In in Hx as [[] | Hx].
      apply (validated_values_plain ps objs Hpass') in Hx.
      destruct Hx as [p Hx]. tauto. }
    assert (Hback : incl objs S).
    { intros o Ho. apply fold_set_add_In. right.
      destruct (Hcov o Ho) as [p [Hp Hpo]].
      apply (validated_values_plain ps objs Hpass'). now exists p. }
    apply Nat.le_antisymm; now apply NoDup_incl_length.
Qed.
End SeveralConstraints.

(** ** The verifier builder *)

Section BuilderLaws.
Variable Pred : Type.
Variable Dnf : Type.
Variable new_PathPredicate : string -> Pred -> Pred.
Variable new_CardinalityPredicate : Pred -> Z -> option Z -> Pred.
Variables CONTAINS EQUIVALENT : value -> Pred.
Variable AND : list Pred -> Pred.

Local Abbreviation perform' :=
  (perform Pred new_PathPredicate new_CardinalityPredicate CONTAINS
           EQUIVALENT AND).
Local Abbreviation chain' :=
  (chain Pred new_PathPredicate new_CardinalityPredicate CONTAINS
         EQUIVALENT AND).
Local Abbreviation requested' :=
  (requested Pred new_PathPredicate new_CardinalityPredicate CONTAINS
             EQUIVALENT AND).
Local Abbreviation requested_all' :=
  (requested_all Pred new_PathPredicate new_CardinalityPredicate CONTAINS
                 EQUIVALENT AND).
Local Abbreviation passes_predicate' :=
  (passes_predicate Pred new_PathPredicate new_CardinalityPredicate CONTAINS
                    EQUIVALENT AND).

Implicit Types (h : Heap Pred) (self : BuilderObject) (r : ListRef).

Lemma heap_append_length h : forall r c,
  length (heap_append h r c) = length h.
Proof.
  induction h as [|l h IH]; intros [|r] c; cbn; try reflexivity.
  now rewrite IH.
Qed.

Lemma heap_read_append_same h : forall r c,
  r < length h ->
  heap_read (heap_append h r c) r = (heap_read h r ++ [c])%list.
Proof.
  unfold heap_read.
  induction h as [|l h IH]; intros [|r] c Hr; cbn in *; try lia;
    [reflexivity | apply IH; lia].
Qed.

Lemma heap_read_append_other h : forall r r' c,
  r <> r' -> heap_read (heap_append h r c) r' = heap_read h r'.
Proof.
  unfold heap_read.
  induction h as [|l h IH]; intros [|r] [|r'] c Hne; cbn;
    try reflexivity; try congruence.
  apply IH. congruence.
Qed.

Lemma perform_predicate self (c : BuilderCall Pred) (p : Pred) h :
  requested' c = Some p ->
  perform' self c h = (inr self, heap_append h (bo_constraints self) p).
Proof.
  destruct c as [[q|cls]| | | | | | | |]; cbn; intros Hreq;
    try discriminate; injection Hreq as <-; reflexivity.
Qed.

Lemma chain_cons self (c : BuilderCall Pred)
    (calls : list (BuilderCall Pred)) h :
  chain' self (c :: calls) h
  = match perform' self c h with
    | (inr self', h') => chain' self' calls h'
    | (inl e, h') => (inl e, h')
    end.
Proof. reflexivity. Qed.

Lemma chain_of_predicates (calls : list (BuilderCall Pred)) : forall self h,
  bo_constraints self < length h ->
  forallb passes_predicate' calls = true ->
  fst (chain' self calls h) = inr self /\
  length (snd (chain' self calls h)) = length h /\
  heap_read (snd (chain' self calls h)) (bo_constraints self)
    = (heap_read h (bo_constraints self) ++ requested_all' calls)%list /\
  (forall r, r <> bo_constraints self ->
             heap_read (snd (chain' self calls h)) r = heap_read h r).
Proof.
  induction calls as [|c calls IH]; intros self h Href Hall.
  - cbn. rewrite app_nil_r. now repeat split.
  - cbn [forallb] in Hall. apply andb_prop in Hall as [Hc Hall].
    unfold passes_predicate in Hc.
    destruct (requested' c) as [p|] eqn:Hreq; [|discriminate].
    rewrite chain_cons, (perform_predicate self c p h Hreq).
    destruct (IH self (heap_append h (bo_constraints self) p))
      as (Hres & Hlen & Hread & Hother);
      [now rewrite heap_append_length | exact Hall |].
    rewrite Hres, Hlen, Hread, heap_append_length.
    repeat split.
    + rewrite heap_read_append_same by exact Href.
      unfold requested_all. cbn [flat_map]. rewrite Hreq.
      now rewrite <- app_assoc.
    + intros r Hr. rewrite Hother by exact Hr.
      apply heap_read_append_other. congruence.
Qed.

(** X12.  A fresh builder accumulates.  Whatever the heap, after
    [ValueObservationVerifierBuilder(title, strict)] and any chain of calls
    that pass predicates ([add_constraint] on a predicate, the [contains_*]
    and [excludes_*] helpers), no exception was raised, the builder is
    returned, its constraints are exactly the constraints the calls asked
    for, one per call, in call order, and no other list of the heap has
    changed. *)
Theorem fresh_builder_accumulates (t : string) (is_strict : bool)
    (calls : list (BuilderCall Pred)) h :
  forallb passes_predicate' calls = true ->
  let run := bind (builder_init t is_strict)
                  (fun self => chain' self calls) h in
  fst run = inr (mkBuilderObject t is_strict (length h)) /\
  heap_read (snd run) (length h) = requested_all' calls /\
  length (requested_all' calls) = length calls /\
  (forall r, r < length h -> heap_read (snd run) r = heap_read h r).
Proof.
  intros Hall. cbv zeta. unfold bind, builder_init, heap_alloc.
  set (self := mkBuilderObject t is_strict (length h)).
  destruct (chain_of_predicates calls self (h ++ [[]])%list)
    as (Hres & _ & Hread & Hother);
    [cbn; rewrite length_app; cbn; lia | exact Hall |].
  cbn [bo_constraints self] in Hread, Hother.
  split; [exact Hres|]. split; [|split].
  - rewrite Hread. unfold heap_read.
    now rewrite nth_middle.
  - clear -Hall. induction calls as [|c calls IH]; [reflexivity|].
    cbn [forallb] in Hall. apply andb_prop in Hall as [Hc Hall].
    unfold requested_all, passes_predicate in *. cbn [flat_map].
    destruct (requested' c); [|discriminate].
    cbn. f_equal. now apply IH.
  - intros r Hr. rewrite Hother by lia.
    unfold heap_read. now rewrite app_nth1.
Qed.

(** X13.  [add_constraint] on an object that is not a predicate raises a
    TypeError naming its class and ends the chain: the builder keeps exactly
    the constraints added before the failing call, and the calls after it
    are not made. *)
Theorem type_error_ends_the_chain self h
    (before after : list (BuilderCall Pred)) (class_name : string) :
  bo_constraints self < length h ->
  forallb passes_predicate' before = true ->
  let run := chain' self
               (before ++ AddConstraint Pred (OtherObject class_name)
                       :: after)%list h in
  fst run
    = inl (TypeError (class_name ++ " is not predicate.ValuePredicate")) /\
  heap_read (snd run) (bo_constraints self)
    = (heap_read h (bo_constraints self) ++ requested_all' before)%list.
Proof.
  revert self h.
  induction before as [|c before IH]; intros self h Href Hall; cbv zeta.
  - cbn. rewrite app_nil_r. now split.
  - cbn [forallb] in Hall. apply andb_prop in Hall as [Hc Hall].
    unfold passes_predicate in Hc.
    destruct (requested' c) as [p|] eqn:Hreq; [|discriminate].
    rewrite <- app_comm_cons, chain_cons,
      (perform_predicate self c p h Hreq).
    destruct (IH self (heap_append h (bo_constraints self) p))
      as (Hres & Hread); [now rewrite heap_append_length | exact Hall |].
    cbv zeta in Hres, Hread. rewrite Hres, Hread.
    split; [reflexivity|].
    rewrite heap_read_append_same by exact Href.
    unfold requested_all. cbn [flat_map]. rewrite Hreq.
    now rewrite <- app_assoc.
Qed.

(** X14.  A built verifier shares the constraint list of its builder.  The
    constraints the builder is given after [_do_build_generate] are seen by
    the verifier built before: its [constraints] are those it was built with
    followed by the later ones. *)
Theorem built_verifier_sees_later_constraints self (dnf : Dnf) h
    (calls : list (BuilderCall Pred)) :
  bo_constraints self < length h ->
  forallb passes_predicate' calls = true ->
  fst (bind (_do_build_generate self dnf)
            (fun v => bind (chain' self calls)
                           (fun _ => verifier_constraints v)) h)
    = inr (heap_read h (bo_constraints self) ++ requested_all' calls)%list
  /\
  fst (bind (_do_build_generate self dnf) verifier_constraints h)
    = inr (heap_read h (bo_constraints self)).
Proof.
  intros Href Hall. split; [|reflexivity].
  unfold bind at 1. cbn [_do_build_generate ret].
  unfold bind.
  destruct (chain_of_predicates calls self h Href Hall)
    as (Hres & _ & Hread & _).
  destruct (chain' self calls h) as [res h'] eqn:E.
  cbn [fst snd] in Hres, Hread. subst res.
  cbn [verifier_constraints vo_constraints fst]. now rewrite Hread.
Qed.

(** X15.  The snapshot of a builder loses nothing: two builders whose
    exported controls are equal have the same strictness and the same
    constraints, although a single constraint is exported alone, under the
    name [Constraint], and any other list under [Constraints]. *)
Theorem builder_export_is_injective self self' h h' :
  builder_export self h = builder_export self' h' ->
  bo_strict self = bo_strict self' /\
  heap_read h (bo_constraints self) = heap_read h' (bo_constraints self').
Proof.
  unfold builder_export. intros Heq.
  injection Heq as Hstrict Hcontrol. split; [exact Hstrict|].
  destruct (heap_read h (bo_constraints self)) as [|c [|d l]];
    destruct (heap_read h' (bo_constraints self')) as [|c' [|d' l']];
    try discriminate Hcontrol; try reflexivity;
    injection Hcontrol; intros; subst; reflexivity.
Qed.
End BuilderLaws.

(** ** A built verifier and later constraints *)

Section BuiltVerifier.
Context {P : Type} `{ValuePredicate P}.
Variable Dnf : Type.
Variable new_PathPredicate : string -> @Constraint P -> @Constraint P.
Variable new_CardinalityPredicate :
  @Constraint P -> Z -> option Z -> @Constraint P.
Variables CONTAINS EQUIVALENT : value -> @Constraint P.
Variable AND : list (@Constraint P) -> @Constraint P.

(** X16.  A verifier checks the constraints its builder was given after
    the verifier was built: on an observation without errors it evaluates,
    in order, the constraints it was built with and then the later ones. *)
Theorem built_verifier_checks_later_constraints (self : BuilderObject)
    (dnf : Dnf) (h : Heap (@Constraint P))
    (calls : list (BuilderCall (@Constraint P))) observation :
  bo_constraints self < length h ->
  forallb (passes_predicate _ new_PathPredicate new_CardinalityPredicate
             CONTAINS EQUIVALENT AND) calls = true ->
  errors observation = [] ->
  let v := mkVerifierObject (bo_title self) dnf (bo_constraints self)
                            (bo_strict self) in
  let h' := snd (chain _ new_PathPredicate new_CardinalityPredicate
                   CONTAINS EQUIVALENT AND self calls h) in
  fst (_do_build_generate self dnf h) = inr v /\
  evaluations (snd (verify (verifier_in h' v) observation))
    = map (fun c => (c, object_list_of observation))
          (heap_read h (bo_constraints self)
           ++ requested_all _ new_PathPredicate new_CardinalityPredicate
                CONTAINS EQUIVALENT AND calls)%list.
Proof.
  intros Href Hall Herr. cbv zeta. split; [reflexivity|].
  destruct (verify_without_errors
              (verifier_in
                 (snd (chain _ new_PathPredicate new_CardinalityPredicate
                         CONTAINS EQUIVALENT AND self calls h))
                 (mkVerifierObject (bo_title self) dnf (bo_constraints self)
                                   (bo_strict self)))
              observation Herr) as (_ & He & _).
  cbv zeta in He. rewrite He. unfold verifier_in.
  cbn [constraints vo_constraints].
  destruct (chain_of_predicates _ new_PathPredicate new_CardinalityPredicate
              CONTAINS EQUIVALENT AND calls self h Href Hall)
    as (_ & _ & Hread & _).
  now rewrite Hread.
Qed.
End BuiltVerifier.

(** ** Instances of the further properties *)

Lemma valid_result_is_clean_witness :
  errors clean_observation = [] /\
  failed_constraints (fst (verify (conditional_verifier true)
                                  clean_observation)) = [] /\
  bad_results (fst (verify (conditional_verifier true) clean_observation))
    = [] /\
  length (good_results (fst (verify (conditional_verifier true)
                                    clean_observation)))
    = length (constraints (conditional_verifier true)) /\
  info_comments (snd (verify (conditional_verifier true) clean_observation))
    = [].
Proof.
  refine (valid_result_is_clean (conditional_verifier true)
            clean_observation _).
  vm_compute. reflexivity.
Defined.

Lemma non_strict_valid_iff_nothing_failed_witness :
  ovr_valid (fst (verify (mkVerifier "Find one of two" two_constraints false)
                         (mkObservation two_dicts []))) = true <->
  failed_constraints
    (fst (verify (mkVerifier "Find one of two" two_constraints false)
                 (mkObservation two_dicts []))) = [].
Proof.
  refine (non_strict_valid_iff_nothing_failed
            (mkVerifier "Find one of two" two_constraints false)
            (mkObservation two_dicts []) eq_refl eq_refl).
Defined.

Lemma strictness_only_restricts_witness :
  ovr_valid (fst (verify (conditional_verifier false) clean_observation))
    = true.
Proof.
  refine (proj2 (proj2 (proj2 (proj2 (proj2 (proj2
            (strictness_only_restricts "Test Conditional" "Test Conditional"
               [Plain conditional] clean_observation)))))) _).
  vm_compute. reflexivity.
Defined.

Lemma verifier_without_constraints_witness :
  ovr_valid (fst (verify (P := TestPredicate) (mkVerifier "Empty" [] false)
                         clean_observation)) = true /\
  ovr_valid (fst (verify (P := TestPredicate) (mkVerifier "Empty" [] true)
                         clean_observation)) = false.
Proof.
  refine (verifier_without_constraints "Empty" clean_observation eq_refl).
Defined.

Lemma shortfall_comment_only_when_strict_witness :
  strict (conditional_verifier true) = true /\
  errors shortfall_observation = [] /\
  failed_constraints (fst (verify (conditional_verifier true)
                                  shortfall_observation)) = [] /\
  ovr_valid (fst (verify (conditional_verifier true) shortfall_observation))
    = false.
Proof.
  refine (proj2 (shortfall_comment_only_when_strict
                   (conditional_verifier true) shortfall_observation) _).
  vm_compute. discriminate.
Defined.

Lemma constraint_order_is_irrelevant_witness :
  let r := fst (verify (mkVerifier "T" [Plain a_is_A; Plain b_is_2] true)
                       (mkObservation two_dicts [])) in
  let r' := fst (verify (mkVerifier "T" [Plain b_is_2; Plain a_is_A] true)
                        (mkObservation two_dicts [])) in
  ovr_valid r = ovr_valid r' /\
  Permutation (failed_constraints r) (failed_constraints r') /\
  Permutation (good_results r) (good_results r') /\
  Permutation (bad_results r) (bad_results r').
Proof.
  refine (constraint_order_is_irrelevant "T" true
            [Plain a_is_A; Plain b_is_2] [Plain b_is_2; Plain a_is_A]
            (mkObservation two_dicts []) _).
  apply perm_swap.
Defined.

Lemma constraint_lists_compose_witness :
  ovr_valid (fst (verify (mkVerifier "T" ([Plain a_is_A] ++ [Plain b_is_2])
                            false)
                         (mkObservation two_dicts [])))
  = ovr_valid (fst (verify (mkVerifier "T" [Plain a_is_A] false)
                           (mkObservation two_dicts [])))
    && ovr_valid (fst (verify (mkVerifier "T" [Plain b_is_2] false)
                              (mkObservation two_dicts []))).
Proof.
  refine (proj2 (proj2 (proj2 (proj2
            (constraint_lists_compose "T" false [Plain a_is_A]
               [Plain b_is_2] (mkObservation two_dicts []) eq_refl))))).
Defined.

Lemma non_strict_wants_an_object_per_constraint_witness :
  ovr_valid (fst (verify (mkVerifier "T" (map Plain [a_is_A; b_is_2]) false)
                         (mkObservation two_dicts []))) = true <->
  forall p, In p [a_is_A; b_is_2] ->
            exists o, In o two_dicts /\ pred_call p o = true.
Proof.
  refine (non_strict_wants_an_object_per_constraint "T" [a_is_A; b_is_2]
            two_dicts _).
  discriminate.
Defined.

Lemma strict_wants_a_constraint_per_object_witness :
  ovr_valid (fst (verify (mkVerifier "T" (map Plain [a_is_A; b_is_2]) true)
                         (mkObservation two_dicts []))) = true <->
  (forall p, In p [a_is_A; b_is_2] ->
             exists o, In o two_dicts /\ pred_call p o = true) /\
  (forall o, In o two_dicts ->
             exists p, In p [a_is_A; b_is_2] /\ pred_call p o = true).
Proof.
  refine (strict_wants_a_constraint_per_object "T" [a_is_A; b_is_2]
            two_dicts _ _).
  - discriminate.
  - apply objects_distinct_2. discriminate.
Defined.

(** [test_verifier_builder_contains_pred_list], on an empty heap. *)
Lemma fresh_builder_accumulates_witness :
  fst (bind (builder_init "TestContainsGroup" false)
            (fun self => chain_term self contains_calls) [])
    = inr (mkBuilderObject "TestContainsGroup" false 0) /\
  heap_read (snd (bind (builder_init "TestContainsGroup" false)
                       (fun self => chain_term self contains_calls) [])) 0
    = [TermCardinalityPredicate aA 1%Z None;
       TermCardinalityPredicate bB 1%Z None].
Proof.
  destruct (fresh_builder_accumulates Term TermPathPredicate
              TermCardinalityPredicate TermCONTAINS TermEQUIVALENT TermAND
              "TestContainsGroup" false contains_calls [] eq_refl)
    as (Hres & Hread & _).
  exact (conj Hres Hread).
Defined.

Lemma type_error_ends_the_chain_witness :
  fst (chain_term one_builder
         (contains_calls
          ++ AddConstraint Term (OtherObject "<type 'str'>")
          :: contains_calls)%list [[]])
    = inl (TypeError ("<type 'str'>" ++ " is not predicate.ValuePredicate"))
  /\
  heap_read (snd (chain_term one_builder
                    (contains_calls
                     ++ AddConstraint Term (OtherObject "<type 'str'>")
                     :: contains_calls)%list [[]])) 0
    = ([] ++ requested_all_term contains_calls)%list.
Proof.
  refine (type_error_ends_the_chain Term TermPathPredicate
            TermCardinalityPredicate TermCONTAINS TermEQUIVALENT TermAND
            one_builder [[]] contains_calls contains_calls "<type 'str'>"
            _ eq_refl).
  cbn. lia.
Defined.

Lemma built_verifier_sees_later_constraints_witness :
  fst (bind (_do_build_generate one_builder tt)
            (fun v => bind (chain_term one_builder contains_calls)
                           (fun _ => verifier_constraints v))
            [[STR_EQ "first"]])
    = inr ([STR_EQ "first"] ++ requested_all_term contains_calls)%list.
Proof.
  refine (proj1 (built_verifier_sees_later_constraints Term unit
                   TermPathPredicate TermCardinalityPredicate TermCONTAINS
                   TermEQUIVALENT TermAND one_builder tt [[STR_EQ "first"]]
                   contains_calls _ eq_refl)).
  cbn. lia.
Defined.

Lemma builder_export_is_injective_witness :
  bo_strict one_builder = bo_strict one_builder /\
  heap_read [[aA]] (bo_constraints one_builder)
    = heap_read [[aA]; [bB]] (bo_constraints one_builder).
Proof.
  refine (builder_export_is_injective Term one_builder one_builder
            [[aA]] [[aA]; [bB]] eq_refl).
Defined.

Lemma built_verifier_checks_later_constraints_witness :
  evaluations
    (snd (verify
            (verifier_in
               (snd (chain _ test_path test_cardinality test_equals
                       test_equals test_and one_builder later_calls
                       [[Plain conditional]]))
               (mkVerifierObject "TestBuilder" tt 0 false))
            clean_observation))
  = map (fun c => (c, object_list_of clean_observation))
        ([Plain conditional]
         ++ requested_all _ test_path test_cardinality test_equals
              test_equals test_and later_calls)%list.
Proof.
  refine (proj2 (built_verifier_checks_later_constraints unit test_path
                   test_cardinality test_equals test_equals test_and
                   one_builder tt [[Plain conditional]] later_calls
                   clean_observation _ eq_refl eq_refl)).
  cbn. lia.
Defined.

(** ** One constraint that judges each object *)

Section OneConstraint.
Context {P : Type} `{ValuePredicate P}.

Lemma existsb_iff_count {A} (f : A -> bool) (l : list A) :
  existsb f l = true <-> 1 <= length (filter f l).
Proof.
  induction l as [|x l IH]; cbn; [split; [discriminate | lia]|].
  destruct (f x); cbn; [split; [lia | reflexivity] | exact IH].
Qed.

Lemma filter_all_iff {A} (f : A -> bool) (l : list A) :
  length (filter f l) = length l <-> forall x, In x l -> f x = true.
Proof.
  induction l as [|x l IH]; cbn; [split; [intros _ y [] | reflexivity]|].
  pose proof (filter_length_le f l) as Hle.
  destruct (f x) eqn:E; cbn.
  - split.
    + intros Hlen y [<- | Hy]; [exact E | apply IH; [lia | exact Hy]].
    + intros Hall. f_equal. apply IH. intros y Hy. apply Hall. now right.
  - split; [lia|]. intros Hall.
    specialize (Hall x (or_introl eq_refl)). congruence.
Qed.

(** C1 (as amended).  Take a verifier with one constraint [c] that judges
    each object on its own, and an observation without errors.  The object
    list is the list of the observed objects when there is one, and the
    single synthetic [None] object otherwise; let [N] be its length and [k]
    the number of its objects that satisfy [c].  Built non-strict, the
    verifier finds the observation valid iff [k >= 1]; built strict, and the
    objects being pairwise distinct, iff [k = N]. *)
Theorem strict_law (t : string) (c : @Constraint P) (observation : Observation) :
  errors observation = [] ->
  judges_each_object c ->
  let object_list := object_list_of observation in
  let k := length (filter (satisfies c) object_list) in
  let N := length object_list in
  (objects observation <> [] -> object_list = objects observation) /\
  (NoDup object_list ->
   (ovr_valid (fst (verify (mkVerifier t [c] true) observation)) = true
    <-> k = N)) /\
  (ovr_valid (fst (verify (mkVerifier t [c] false) observation)) = true
   <-> 1 <= k).
Proof.
  intros Herr Hjudges. cbv zeta.
  split; [unfold object_list_of; now destruct (objects observation)|].
  destruct (verify_without_errors (mkVerifier t [c] true) observation Herr)
    as (Hstrict & _).
  destruct (verify_without_errors (mkVerifier t [c] false) observation Herr)
    as (Hloose & _).
  cbv zeta in Hstrict, Hloose. rewrite Hstrict, Hloose.
  cbn [ovr_valid constraints strict negb orb].
  set (ol := object_list_of observation).
  destruct (judged_constraint c Hjudges ol) as [Hvalid Hobjects].
  unfold all_items_pass, covered, validated_by, validated_values,
    results_of, constraint_ok. cbn [forallb map flat_map].
  rewrite !andb_true_r, app_nil_r, Hvalid.
  split; [|apply existsb_iff_count].
  intros Hnd. rewrite andb_true_iff, Nat.eqb_eq, filter_all_iff.
  assert (Hne : ol <> []) by apply object_list_not_empty.
  split.
  - intros [Hsome Hcov]. rewrite Hsome in Hcov.
    set (S := fold_left set_add
                (validated_objects_of (eval_constraint c ol)) []) in *.
    assert (HS : NoDup S) by (apply fold_set_add_NoDup; constructor).
    assert (Hin : incl S ol).
    { intros x Hx. apply fold_set_add_In in Hx as [[] | Hx].
      now apply Hobjects in Hx. }
    assert (Hback : incl ol S)
      by (apply (NoDup_length_incl HS); [lia | exact Hin]).
    intros x Hx. apply Hback in Hx.
    apply fold_set_add_In in Hx as [[] | Hx]. now apply Hobjects in Hx.
  - intros Hall.
    assert (Hsome : existsb (satisfies c) ol = true).
    { destruct ol as [|o ol']; [contradiction|].
      cbn. now rewrite (Hall o (or_introl eq_refl)). }
    rewrite Hsome. split; [reflexivity|].
    set (S := fold_left set_add
                (validated_objects_of (eval_constraint c ol)) []).
    assert (HS : NoDup S) by (apply fold_set_add_NoDup; constructor).
    assert (Hin : incl S ol).
    { intros x Hx. apply fold_set_add_In in Hx as [[] | Hx].
      now apply Hobjects in Hx. }
    assert (Hback : incl ol S).
    { intros x Hx. apply fold_set_add_In. right. apply Hobjects.
      split; [exact Hx | now apply Hall]. }
    apply Nat.le_antisymm; now apply NoDup_incl_length.
Qed.
End OneConstraint.

(** ** Instances of the strict law *)

(** The first case of [test_object_observation_verifier_with_conditional]:
    both objects satisfy the conditional. *)
Lemma strict_law_witness :
  (ovr_valid (fst (verify (mkVerifier "Test Conditional" [Plain conditional]
                             true) clean_observation)) = true
   <-> length (filter (satisfies (Plain conditional))
                      (object_list_of clean_observation))
       = length (object_list_of clean_observation)) /\
  (ovr_valid (fst (verify (mkVerifier "Test Conditional" [Plain conditional]
                             false) clean_observation)) = true
   <-> 1 <= length (filter (satisfies (Plain conditional))
                           (object_list_of clean_observation))).
Proof.
  destruct (strict_law "Test Conditional" (Plain conditional)
              clean_observation eq_refl (judges_plain conditional))
    as (_ & Hstrict & Hloose).
  refine (conj (Hstrict _) Hloose).
  apply objects_distinct_2. discriminate.
Defined.

(** A path predicate looked up in each object: two distinct objects with
    [a = 'A'] validate each other's presence, and the strict verifier is
    valid. *)
Lemma strict_law_on_a_path_predicate :
  judges_each_object a_equals_A /\
  length (filter (satisfies a_equals_A) two_with_a_A) = 2 /\
  ovr_valid (fst (verify (mkVerifier "aA" [a_equals_A] true)
                         (mkObservation two_with_a_A []))) = true.
Proof.
  split; [|split; vm_compute; reflexivity].
  apply (judges_path _ "a" [] true); reflexivity.
Qed.

(** C1 as worded fails in three ways.  On an observation without objects
    none of the zero objects fails the constraint, yet the strict verifier is
    invalid, because the constraint is checked against [None].  A constraint
    that names the first object is satisfied by the second of two objects
    alone, yet the non-strict verifier is invalid.  Two equal objects that
    both satisfy the constraint count once, and the strict verifier is
    invalid. *)
Lemma strict_law_fails_as_worded :
  ~ (ovr_valid (fst (verify strict_equals_2 (mkObservation [] []))) = true
     <-> count_satisfying (TestEquals (VNum 2)) [] = length (@nil value)) /\
  ~ (ovr_valid (fst (verify (mkVerifier "first" [first_a_equals_A] false)
                            (mkObservation [_NUMBER_DICT; _LETTER_DICT] [])))
       = true
     <-> 1 <= length (filter (satisfies first_a_equals_A)
                             [_NUMBER_DICT; _LETTER_DICT])) /\
  ~ (ovr_valid (fst (verify strict_equals_2
                            (mkObservation [VNum 2; VNum 2] []))) = true
     <-> count_satisfying (TestEquals (VNum 2)) [VNum 2; VNum 2]
         = length [VNum 2; VNum 2]).
Proof.
  repeat split.
  - intros [_ Hback]. specialize (Hback eq_refl). discriminate Hback.
  - intros [_ Hback].
    assert (Hk : 1 <= length (filter (satisfies first_a_equals_A)
                                     [_NUMBER_DICT; _LETTER_DICT]))
      by (vm_compute; lia).
    specialize (Hback Hk). vm_compute in Hback. discriminate Hback.
  - intros [_ Hback]. specialize (Hback eq_refl). discriminate Hback.
Qed.

(** Python's equality identifies what structural equality keeps apart. *)
Lemma py_eq_across_types_and_orders :
  py_eq (VBool true) (VNum 1) = true /\
  py_eq (VList [VNum 0; VStr "x"]) (VList [VBool false; VStr "x"]) = true /\
  py_eq (VDict [("a", VNum 1); ("b", VNum 2)])
        (VDict [("b", VNum 2); ("a", VNum 1)]) = true /\
  py_eq (VDict [("a", VNum 1)]) (VDict [("a", VNum 1); ("b", VNum 2)])
    = false /\
  py_eq VNone (VNum 0) = false.
Proof. repeat split; reflexivity. Qed.
